(** * schema-pixi-renderer: the reconciler, the lookup registry, the
    relationship graph, the anchored position resolver and the hit tester,
    embedded from [runtime.ts], [visuals/index.ts], [utils.ts] and
    [index.ts].

    Conventions of the embedding.
    - A PIXI object (sprite, graphics, filter) is a handle [obj]; object
      identity is equality of handles.
    - A JavaScript [Map] is an insertion-ordered association list with
      unique keys ([JsMap]): [set] on a present key overwrites in place,
      on an absent key appends; iteration follows insertion order.
    - Config objects of a snapshot live in a store indexed by reference
      ([cref]); the registry's object->config view holds references, so an
      in-place write to a config is visible through every alias.
    - A JavaScript [number] that the code computes with (the operands of
      [resolvePosition], the bounds and the query point of the hit tester)
      is a binary64 float ([float]), and [+], [-], [*], [/], [<=] are the
      IEEE operations, in the order in which the code applies them.  A
      z-index is only ever compared; it is an exact rational ([Q]), the
      comparison of two doubles other than NaN being the comparison of
      their values.
    - A plain JavaScript object read with [o[key]] answers with its own
      property, or else with the member of [Object.prototype] of that name.
    - Code that can throw returns an [Outcome] next to the state it leaves
      behind.
    - The modules that the embedded files import and that are not among
      them ([./sprite], [./graphic], [./filters], [./transitions]) are the
      fields of [Collaborators].

    The definitions come first: the embedded code, then the notions that
    the statements use and the scenarios; the properties follow. *)

From Stdlib Require Import QArith Floats.
From stdpp Require Import base option list sorting strings gmap.

Set Default Proof Using "Type".
#[local] Set Warnings "-register-all".
#[local] Set Warnings "-inexact-float".


(** ** JavaScript [Map]: insertion-ordered association list *)

Module JsMap.
Section jsmap.
Context {K V : Type} `{EqDecision K}.

Definition t : Type := list (K * V).

Definition empty : t := [].

Fixpoint get (k : K) (m : t) : option V :=
  match m with
  | [] => None
  | (k', v) :: m' => if decide (k = k') then Some v else get k m'
  end.

Definition has (k : K) (m : t) : bool :=
  match get k m with Some _ => true | None => false end.

Fixpoint set (k : K) (v : V) (m : t) : t :=
  match m with
  | [] => [(k, v)]
  | (k', v') :: m' =>
      if decide (k = k') then (k, v) :: m' else (k', v') :: set k v m'
  end.

Fixpoint delete (k : K) (m : t) : t :=
  match m with
  | [] => []
  | (k', v') :: m' =>
      if decide (k = k') then delete k m' else (k', v') :: delete k m'
  end.

Definition keys (m : t) : list K := m.*1.
Definition values (m : t) : list V := m.*2.
End jsmap.
Global Arguments t : clear implicits.
End JsMap.

(** ** Data model ([index.ts], [runtime.ts]) *)

(** Handle of a PIXI object; two handles are the same object iff equal. *)
Definition obj : Type := nat.

(** Reference to a config object of a snapshot. *)
Definition cref : Type := nat.

(** The keys of [Scope.lookup]. *)
Inductive LookupKey : Type := Sprite | Graphic | Filter | Transition.

#[export] Instance LookupKey_eq_dec : EqDecision LookupKey.
Proof. solve_decision. Defined.

(** The fields of [PixiObject[...]] that the reconciler and the hit tester
    read or write.  [cfg_identifier] is the property ["identifier"], which
    no snapshot type declares and which [getHit] assigns. *)
Record Config : Type := mkConfig {
  cfg_tag : option string;
  cfg_parent : option string;
  cfg_mask : option string;
  cfg_zIndex : option Q;
  cfg_identifier : option string;
}.

Definition emptyConfig : Config := mkConfig None None None None None.

Definition set_cfg_identifier (i : option string) (c : Config) : Config :=
  mkConfig (cfg_tag c) (cfg_parent c) (cfg_mask c) (cfg_zIndex c) i.

(** JavaScript truthiness of an optional string: [undefined] and the empty
    string are falsy. *)
Definition truthy (s : option string) : option string :=
  match s with
  | Some EmptyString => None
  | Some t => Some t
  | None => None
  end.

(** [Lookup<T, Key>]: the four views of one kind's registry. *)
Record Lookup : Type := mkLookup {
  byIdentifier : JsMap.t string obj;
  byTag : JsMap.t string (list obj);
  configBy : JsMap.t obj cref;
  identifierBy : JsMap.t obj string;
}.

Definition createLookup : Lookup :=
  mkLookup JsMap.empty JsMap.empty JsMap.empty JsMap.empty.

(** [Record<string, PixiObject[Key]>] in [for (... in ...)] / [Object.keys]
    order; [None] is an [undefined] section. *)
Definition Section_ : Type := option (list (string * cref)).

(** [RenderInput & AliasLookup]. *)
Record Input : Type := mkInput {
  in_Sprite : Section_;
  in_Graphic : Section_;
  in_Filter : Section_;
  in_Transition : Section_;
  in_Alias : option (gmap string string);
}.

Definition in_section (key : LookupKey) (i : Input) : Section_ :=
  match key with
  | Sprite => in_Sprite i
  | Graphic => in_Graphic i
  | Filter => in_Filter i
  | Transition => in_Transition i
  end.

(** The state the code reads and writes: the fields of [Scope], the
    module-level [childrenByIdentifier] of [visuals/index.ts], the store of
    config objects, and what the PIXI side records: the allocator behind the
    factories, each factory call, each [destroy] call, each object's
    [filters], [mask] and [zIndex]. *)
Record World : Type := mkWorld {
  lookup_Sprite : Lookup;
  lookup_Graphic : Lookup;
  lookup_Filter : Lookup;
  lookup_Transition : Lookup;
  childrenByParent : JsMap.t (option obj) (list obj);
  parentByChild : JsMap.t obj (option obj);
  alias : option (gmap string string);
  spritesheets : bool;
  texturesFromSheet : bool;
  container : list obj;
  childrenByIdentifier : JsMap.t string (list obj);
  cstore : gmap cref Config;
  next_obj : obj;
  made : list (LookupKey * string * obj);
  destroyed : list obj;
  filtersOf : JsMap.t obj (list obj);
  maskOf : JsMap.t obj (option obj);
  zIndexOf : JsMap.t obj Q;
}.

Definition lookup (key : LookupKey) (w : World) : Lookup :=
  match key with
  | Sprite => lookup_Sprite w
  | Graphic => lookup_Graphic w
  | Filter => lookup_Filter w
  | Transition => lookup_Transition w
  end.

Definition set_lookup (key : LookupKey) (l : Lookup) (w : World) : World :=
  mkWorld (if decide (key = Sprite) then l else lookup_Sprite w) (if decide
    (key = Graphic) then l else lookup_Graphic w) (if decide (key = Filter)
    then l else lookup_Filter w) (if decide (key = Transition) then l else
    lookup_Transition w) (childrenByParent w) (parentByChild w) (alias w)
    (spritesheets w) (texturesFromSheet w) (container w)
    (childrenByIdentifier w) (cstore w) (next_obj w) (made w) (destroyed w)
    (filtersOf w) (maskOf w) (zIndexOf w).

Definition set_graph (cbp : JsMap.t (option obj) (list obj))
    (pbc : JsMap.t obj (option obj)) (w : World) : World :=
  mkWorld (lookup_Sprite w) (lookup_Graphic w) (lookup_Filter w)
    (lookup_Transition w) cbp pbc (alias w) (spritesheets w)
    (texturesFromSheet w) (container w) (childrenByIdentifier w) (cstore w)
    (next_obj w) (made w) (destroyed w) (filtersOf w) (maskOf w)
    (zIndexOf w).

Definition set_alias (a : option (gmap string string)) (w : World) : World :=
  mkWorld (lookup_Sprite w) (lookup_Graphic w) (lookup_Filter w)
    (lookup_Transition w) (childrenByParent w) (parentByChild w) a
    (spritesheets w) (texturesFromSheet w) (container w)
    (childrenByIdentifier w) (cstore w) (next_obj w) (made w) (destroyed w)
    (filtersOf w) (maskOf w) (zIndexOf w).

Definition set_texturesFromSheet (b : bool) (w : World) : World :=
  mkWorld (lookup_Sprite w) (lookup_Graphic w) (lookup_Filter w)
    (lookup_Transition w) (childrenByParent w) (parentByChild w) (alias w)
    (spritesheets w) b (container w) (childrenByIdentifier w) (cstore w)
    (next_obj w) (made w) (destroyed w) (filtersOf w) (maskOf w)
    (zIndexOf w).

Definition set_container (c : list obj) (w : World) : World :=
  mkWorld (lookup_Sprite w) (lookup_Graphic w) (lookup_Filter w)
    (lookup_Transition w) (childrenByParent w) (parentByChild w) (alias w)
    (spritesheets w) (texturesFromSheet w) c (childrenByIdentifier w)
    (cstore w) (next_obj w) (made w) (destroyed w) (filtersOf w) (maskOf w)
    (zIndexOf w).

Definition set_childrenByIdentifier (m : JsMap.t string (list obj))
    (w : World) : World :=
  mkWorld (lookup_Sprite w) (lookup_Graphic w) (lookup_Filter w)
    (lookup_Transition w) (childrenByParent w) (parentByChild w) (alias w)
    (spritesheets w) (texturesFromSheet w) (container w) m (cstore w)
    (next_obj w) (made w) (destroyed w) (filtersOf w) (maskOf w)
    (zIndexOf w).

Definition set_cstore (s : gmap cref Config) (w : World) : World :=
  mkWorld (lookup_Sprite w) (lookup_Graphic w) (lookup_Filter w)
    (lookup_Transition w) (childrenByParent w) (parentByChild w) (alias w)
    (spritesheets w) (texturesFromSheet w) (container w)
    (childrenByIdentifier w) s (next_obj w) (made w) (destroyed w)
    (filtersOf w) (maskOf w) (zIndexOf w).

Definition set_factory (n : obj) (m : list (LookupKey * string * obj))
    (w : World) : World :=
  mkWorld (lookup_Sprite w) (lookup_Graphic w) (lookup_Filter w)
    (lookup_Transition w) (childrenByParent w) (parentByChild w) (alias w)
    (spritesheets w) (texturesFromSheet w) (container w)
    (childrenByIdentifier w) (cstore w) n m (destroyed w) (filtersOf w)
    (maskOf w) (zIndexOf w).

Definition set_destroyed (d : list obj) (w : World) : World :=
  mkWorld (lookup_Sprite w) (lookup_Graphic w) (lookup_Filter w)
    (lookup_Transition w) (childrenByParent w) (parentByChild w) (alias w)
    (spritesheets w) (texturesFromSheet w) (container w)
    (childrenByIdentifier w) (cstore w) (next_obj w) (made w) d (filtersOf
    w) (maskOf w) (zIndexOf w).

Definition set_filtersOf (f : JsMap.t obj (list obj)) (w : World) : World :=
  mkWorld (lookup_Sprite w) (lookup_Graphic w) (lookup_Filter w)
    (lookup_Transition w) (childrenByParent w) (parentByChild w) (alias w)
    (spritesheets w) (texturesFromSheet w) (container w)
    (childrenByIdentifier w) (cstore w) (next_obj w) (made w) (destroyed w)
    f (maskOf w) (zIndexOf w).

Definition set_maskOf (m : JsMap.t obj (option obj)) (w : World) : World :=
  mkWorld (lookup_Sprite w) (lookup_Graphic w) (lookup_Filter w)
    (lookup_Transition w) (childrenByParent w) (parentByChild w) (alias w)
    (spritesheets w) (texturesFromSheet w) (container w)
    (childrenByIdentifier w) (cstore w) (next_obj w) (made w) (destroyed w)
    (filtersOf w) m (zIndexOf w).


(** [createScope]: empty registries and graph, [alias] still [undefined]. *)
Definition createScope (sheets : bool) : World :=
  mkWorld createLookup createLookup createLookup createLookup
    JsMap.empty JsMap.empty None sheets false [] JsMap.empty ∅ 0 [] []
    JsMap.empty JsMap.empty JsMap.empty.

(** The config object behind a reference. *)
Definition config_at (w : World) (c : cref) : Config :=
  default emptyConfig (cstore w !! c).

(** ** Failure *)

(** What a call can raise: a JavaScript [TypeError] (property access on
    [undefined], [Object.keys(undefined)]) or the rejection of the asset
    load. *)
Inductive Error : Type := TypeError | LoadError.

Inductive Outcome : Type := Done | Throw (e : Error).

(** A call either completes or throws; either way it leaves a state. *)
Definition Call : Type := World → Outcome * World.

Definition pure (f : World → World) : Call := λ w, (Done, f w).

Definition andThen (c1 c2 : Call) : Call :=
  λ w, match c1 w with
       | (Done, w') => c2 w'
       | (Throw e, w') => (Throw e, w')
       end.

Notation "c1 &> c2" := (andThen c1 c2) (at level 62, right associativity).

(** ** The PIXI operations the code calls *)

(** [item.destroy()]: records the call; a display object also leaves its
    parent container. *)
Definition destroy (item : obj) (w : World) : World :=
  set_container (filter (λ o, o ≠ item) (container w))
    (set_destroyed (destroyed w ++ [item]) w).

(** [container.addChild(item)]: the item leaves its current place, if it
    has one, and becomes the last child. *)
Definition addChild (item : obj) (w : World) : World :=
  set_container (filter (λ o, o ≠ item) (container w) ++ [item]) w.

(** [zIndex] of an object, [0] until a setter assigns it. *)
Definition zIndex_of (w : World) (o : obj) : Q :=
  default 0%Q (JsMap.get o (zIndexOf w)).

(** [sortChildren]: a stable sort by ascending [zIndex]. *)
Fixpoint insert_by_z {A} (z : A → Q) (a : A) (l : list A) : list A :=
  match l with
  | [] => [a]
  | b :: l' => if Qlt_le_dec (z a) (z b) then a :: b :: l'
               else b :: insert_by_z z a l'
  end.

Definition sort_by_z {A} (z : A → Q) (l : list A) : list A :=
  foldl (λ acc a, insert_by_z z a acc) [] l.

Definition sortChildren (w : World) : World :=
  set_container (sort_by_z (zIndex_of w) (container w)) w.

(** ** [runtime.ts]: [clean] *)

(** The loop of [clean] over the entries of [lookup.byIdentifier].  The
    loop deletes the entry it is visiting only, so iterating the live map
    visits the entries present when the loop starts. *)
Fixpoint clean_entries (key : LookupKey) (set : list string)
    (entries : list (string * obj)) (w : World) : World :=
  match entries with
  | [] => w
  | (identifier, item) :: rest =>
      if bool_decide (identifier ∈ set) then clean_entries key set rest w
      else
        let l := lookup key w in
        let l' := mkLookup (JsMap.delete identifier (byIdentifier l))
                    (byTag l) (JsMap.delete item (configBy l))
                    (identifierBy l) in
        clean_entries key set rest (destroy item (set_lookup key l' w))
  end.

Definition clear_byTag (l : Lookup) : Lookup :=
  mkLookup (byIdentifier l) JsMap.empty (configBy l) (identifierBy l).

Definition clean (current : Section_) (key : LookupKey) (w : World) : World :=
  match current with
  | None => w
  | Some cur =>
      let set := cur.*1 in
      let w' := clean_entries key set (byIdentifier (lookup key w)) w in
      set_lookup key (clear_byTag (lookup key w')) w'
  end.

(** ** [runtime.ts]: [load] *)

(** The asset load.  [ok] is the verdict of the loader; what it returns is
    used by the sprite factory only.  [Object.keys(input.Sprite)] runs
    unless the sheet textures are cached. *)
Definition load (ok : bool) (input : Input) : Call :=
  λ w,
  if spritesheets w && texturesFromSheet w then (Done, w)
  else match in_Sprite input with
       | None => (Throw TypeError, w)
       | Some _ =>
           if ok then
             (Done, if spritesheets w then set_texturesFromSheet true w else w)
           else (Throw LoadError, w)
       end.

(** ** [utils.ts] and [visuals/index.ts]: [setOrAppend], [create] *)

Definition setOrAppend {K} `{EqDecision K} (key : K) (item : obj)
    (map : JsMap.t K (list obj)) : JsMap.t K (list obj) :=
  match JsMap.get key map with
  | Some l => JsMap.set key (l ++ [item]) map
  | None => JsMap.set key [item] map
  end.

(** [byIdentifier.get(identifier) ?? make(identifier, config)]: the factory
    runs only when the identifier is unregistered; it returns an object
    that did not exist before.  The factories of [prepare] are taken to
    succeed. *)
Definition get_or_make (key : LookupKey) (identifier : string) (w : World)
    : obj * World :=
  match JsMap.get identifier (byIdentifier (lookup key w)) with
  | Some pixi => (pixi, w)
  | None =>
      let pixi := next_obj w in
      (pixi, set_factory (S pixi) (made w ++ [(key, identifier, pixi)]) w)
  end.

(** One iteration of the loop of [create]. *)
Definition create_one (key : LookupKey) (identifier : string) (c : cref)
    (w : World) : World :=
  let config := config_at w c in
  let '(pixi, w) := get_or_make key identifier w in
  let w := set_filtersOf (JsMap.set pixi [] (filtersOf w)) w in
  let l := lookup key w in
  let byId := JsMap.set identifier pixi (byIdentifier l) in
  let tags := match truthy (cfg_tag config) with
              | Some tag => setOrAppend tag pixi (byTag l)
              | None => byTag l
              end in
  let w := match truthy (cfg_parent config) with
           | Some parent =>
               set_childrenByIdentifier
                 (setOrAppend parent pixi (childrenByIdentifier w)) w
           | None => w
           end in
  set_lookup key
    (mkLookup byId tags (JsMap.set pixi c (configBy l))
       (JsMap.set pixi identifier (identifierBy l))) w.

Definition create (configs : Section_) (key : LookupKey) (w : World) : World :=
  match configs with
  | None => w
  | Some cs => foldl (λ w '(identifier, c), create_one key identifier c w) w cs
  end.

(** ** [visuals/index.ts]: [formRelationships], [setupMasks], [initialize] *)

(** The property names of [Object.prototype], which a plain object such
    as the alias table inherits. *)
Definition Object_prototype : list string :=
  ["constructor"; "__defineGetter__"; "__defineSetter__"; "hasOwnProperty";
   "__lookupGetter__"; "__lookupSetter__"; "isPrototypeOf";
   "propertyIsEnumerable"; "toString"; "valueOf"; "__proto__";
   "toLocaleString"]%string.

(** What [alias[identifier]] evaluates to: the own entry of the table, or
    else the member of [Object.prototype] of that name (a function, or the
    prototype itself), or else [undefined]. *)
Inductive Member : Type :=
  Own (assetPath : string) | Inherited | Undefined.

Definition member (table : gmap string string) (identifier : string)
    : Member :=
  match table !! identifier with
  | Some assetPath => Own assetPath
  | None =>
      if bool_decide (identifier ∈ Object_prototype) then Inherited
      else Undefined
  end.

(** The parent expression of [formRelationships]:
    [(Sprite.byIdentifier.get(identifier)
       ?? Sprite.byIdentifier.get(alias[identifier].assetPath))!].
    The outer [None] is the [TypeError] of reading [alias[identifier]] on an
    [undefined] alias table, or [.assetPath] on an [undefined] entry.  An
    inherited member has no [assetPath]: the property is [undefined], and
    so is what the map holds for it.  The inner option is the value of the
    expression, which can be [undefined]: the trailing [!] is erased by the
    compiler and checks nothing. *)
Definition resolve_parent (identifier : string) (w : World)
    : option (option obj) :=
  match JsMap.get identifier (byIdentifier (lookup_Sprite w)) with
  | Some parent => Some (Some parent)
  | None =>
      match alias w with
      | None => None
      | Some table =>
          match member table identifier with
          | Undefined => None
          | Inherited => Some None
          | Own assetPath =>
              Some (JsMap.get assetPath (byIdentifier (lookup_Sprite w)))
          end
      end
  end.

Definition link (parent : option obj) (children : list obj) (w : World)
    : World :=
  set_graph (JsMap.set parent children (childrenByParent w))
    (foldl (λ m child, JsMap.set child parent m) (parentByChild w) children)
    w.

Fixpoint formRelationships_entries (entries : list (string * list obj))
    : Call :=
  match entries with
  | [] => pure id
  | (identifier, children) :: rest =>
      λ w, match resolve_parent identifier w with
           | None => (Throw TypeError, w)
           | Some parent =>
               formRelationships_entries rest (link parent children w)
           end
  end.

Definition formRelationships : Call :=
  λ w, formRelationships_entries (childrenByIdentifier w) w.

Fixpoint setupMasks_entries (entries : list (string * cref)) : Call :=
  match entries with
  | [] => pure id
  | (spriteId, c) :: rest =>
      λ w, match truthy (cfg_mask (config_at w c)) with
           | None => setupMasks_entries rest w
           | Some mask =>
               match JsMap.get spriteId (byIdentifier (lookup_Sprite w)) with
               | None => (Throw TypeError, w)
               | Some sprite =>
                   let graphic :=
                     JsMap.get mask (byIdentifier (lookup_Graphic w)) in
                   setupMasks_entries rest
                     (set_maskOf (JsMap.set sprite graphic (maskOf w)) w)
               end
           end
  end.

(** [Object.entries(Sprite)] throws on an [undefined] section. *)
Definition setupMasks (sprites : Section_) : Call :=
  match sprites with
  | None => λ w, (Throw TypeError, w)
  | Some entries => setupMasks_entries entries
  end.

(** The parts of the repository that the embedded files call and that are
    not among them: the per-kind setters ([./sprite], [./graphic]), the
    filter and transition configuration ([./filters], [./transitions]) and
    the ticker callback [performTransitions]. *)
Record Collaborators : Type := mkCollaborators {
  setSprite : obj → cref → Call;
  drawGraphic : obj → cref → Call;
  configureFilters : Input → Call;
  configureTransitions : Input → Call;
  performTransitions : Call;
}.

Fixpoint initialize_entries (set : obj → cref → Call)
    (entries : list (obj * cref)) : Call :=
  match entries with
  | [] => pure id
  | (item, config) :: rest =>
      pure (addChild item) &>
      (λ w, if JsMap.has item (parentByChild w)
            then initialize_entries set rest w
            else (set item config &> initialize_entries set rest) w)
  end.

Definition initialize (key : LookupKey) (set : obj → cref → Call) : Call :=
  λ w, initialize_entries set (configBy (lookup key w)) w.

(** [configure] of [visuals/index.ts]. *)
Definition configureVisuals (E : Collaborators) (input : Input) : Call :=
  pure (set_childrenByIdentifier JsMap.empty) &>
  pure (create (in_Graphic input) Graphic) &>
  pure (create (in_Sprite input) Sprite) &>
  formRelationships &>
  setupMasks (in_Sprite input) &>
  initialize Sprite (setSprite E) &>
  initialize Graphic (drawGraphic E).

(** ** [runtime.ts]: [prepare] *)

(** Line 118: [clean] for the keys ["Sprite"], ["Graphic"], ["Filter"]. *)
Definition clean_all (input : Input) (w : World) : World :=
  foldl (λ w key, clean (in_section key input) key w) w
    [Sprite; Graphic; Filter].

(** Line 119: the four maps of the transition lookup and both maps of the
    relationship graph are cleared. *)
Definition clear_transitions_and_graph (w : World) : World :=
  set_graph JsMap.empty JsMap.empty (set_lookup Transition createLookup w).

(** [prepare]; [ok] is the verdict of the asset loader.  The application's
    start/stop flag and the two clock fields are not part of the state. *)
Definition prepare (E : Collaborators) (ok : bool) (input : Input) : Call :=
  pure (set_alias (in_Alias input)) &>
  pure (clean_all input) &>
  pure clear_transitions_and_graph &>
  load ok input &>
  configureVisuals E input &>
  configureFilters E input &>
  configureTransitions E input &>
  pure sortChildren &>
  performTransitions E.

(** Collaborators that do nothing, for running the code on examples. *)
Definition idle : Collaborators :=
  mkCollaborators (λ _ _, pure id) (λ _ _, pure id) (λ _, pure id)
    (λ _, pure id) (pure id).

(** ** [visuals/index.ts]: [resolvePosition] *)

Record Position : Type := mkPosition {
  value : float;
  anchors_self : float;
  anchors_parent : float;
}.

Inductive Dimension : Type := X | Y.

Record Size : Type := mkSize { width : float; height : float }.

(** [Parent = Center & Size]. *)
Record Parent : Type := mkParent {
  parent_x : float;
  parent_y : float;
  parent_width : float;
  parent_height : float;
}.

Definition parent_center (dimension : Dimension) (p : Parent) : float :=
  match dimension with X => parent_x p | Y => parent_y p end.

Definition parent_extent (dimension : Dimension) (p : Parent) : float :=
  match dimension with X => parent_width p | Y => parent_height p end.

Definition self_extent (dimension : Dimension) (s : Size) : float :=
  match dimension with X => width s | Y => height s end.

Definition point : Size := mkSize 0 0.

(** Line 35, with the operators of JavaScript: [*] and [/] bind tighter
    than [+] and [-], which associate to the left. *)
Definition resolvePosition (pos : Position) (dimension : Dimension)
    (self : Size) (parent : Parent) : float :=
  (parent_center dimension parent - parent_extent dimension parent / 2
   + anchors_parent pos * parent_extent dimension parent
   + (0.5 - anchors_self pos) * self_extent dimension self
   + parent_extent dimension parent * value pos)%float.

(** ** [runtime.ts]: the hit tester *)

Inductive ItemKind : Type := KSprite | KGraphics | KContainer.

(** What [getBounds()] returns. *)
Record Bounds : Type := mkBounds {
  bounds_x : float;
  bounds_y : float;
  bounds_width : float;
  bounds_height : float;
}.

(** A display object of the container tree: its handle, its class, its
    bounds, its [zIndex] and its [children] in insertion order.  Every PIXI
    display object that has children is a [Container], and [Sprite] and
    [Graphics] are subclasses of it. *)
Inductive item : Type :=
  Item (oid : obj) (kind : ItemKind) (bounds : Bounds) (z : Q)
       (children : list item).

Definition item_oid (i : item) : obj := let 'Item o _ _ _ _ := i in o.
Definition item_kind (i : item) : ItemKind := let 'Item _ k _ _ _ := i in k.
Definition item_bounds (i : item) : Bounds := let 'Item _ _ b _ _ := i in b.
Definition item_zIndex (i : item) : Q := let 'Item _ _ _ z _ := i in z.
Definition item_children (i : item) : list item :=
  let 'Item _ _ _ _ cs := i in cs.

Definition isSceneItem (i : item) : bool :=
  match item_kind i with
  | KSprite | KContainer | KGraphics => true
  end.

(** The test of lines 172-173: [x >= bounds.x && x <= bounds.x +
    bounds.width && y >= bounds.y && y <= bounds.y + bounds.height], the
    sums being those of binary64. *)
Definition within (b : Bounds) (x y : float) : bool :=
  ((bounds_x b <=? x) && (x <=? bounds_x b + bounds_width b)
   && (bounds_y b <=? y) && (y <=? bounds_y b + bounds_height b))%float.

Definition Qgt_bool (a b : Q) : bool := negb (Qle_bool a b).

(** Lines 181-183. *)
Definition update_topmost (topmostObject : option item) (child : item)
    : option item :=
  match topmostObject with
  | None => Some child
  | Some top =>
      if Qgt_bool (item_zIndex child) (item_zIndex top) then Some child
      else Some top
  end.

(** The [for] loop of [traverse]: [i] is one more than the loop index, and
    [recurse] is the recursive call.  The result is the new value of
    [topmostObject], or [None] when the recursion ran out of fuel. *)
Fixpoint traverse_loop (recurse : item → option item → option (option item))
    (children : list item) (x y : float) (i : nat)
    (topmostObject : option item)
    : option (option item) :=
  match i with
  | O => Some topmostObject
  | S j =>
      match children !! j with
      | None => Some topmostObject
      | Some child =>
          if within (item_bounds child) x y then
            top ← (if isSceneItem child
                      && negb (Nat.eqb (length (item_children child)) 0)
                   then recurse child topmostObject
                   else Some topmostObject);
            Some (update_topmost top child)
          else traverse_loop recurse children x y j topmostObject
      end
  end.

Fixpoint traverse (fuel : nat) (x y : float) (container : item)
    (topmostObject : option item) : option (option item) :=
  match fuel with
  | O => None
  | S fuel' =>
      traverse_loop (traverse fuel' x y) (item_children container) x y
        (length (item_children container)) topmostObject
  end.

(** Number of levels of a tree; the recursion of [traverse] is that deep at
    most. *)
Fixpoint levels (i : item) : nat :=
  match i with
  | Item _ _ _ _ cs => S (foldr (λ c n, Nat.max (levels c) n) 0%nat cs)
  end.

Definition findTopmostObjectAtPosition (root : item) (x y : float)
    : option item :=
  default None (traverse (levels root) x y root None).

(** What [postMessage] receives: [null] or a copy of a config. *)
Inductive Message : Type := MNull | MConfig (c : Config).

(** The branch of [getHit] for a sprite or a graphic found in [key]'s
    registry. *)
Definition post_config (key : LookupKey) (result : item) (w : World)
    : Outcome * World * option Message :=
  match JsMap.get (item_oid result) (configBy (lookup key w)) with
  | None => (Throw TypeError, w, None)
  | Some c =>
      let identifier :=
        JsMap.get (item_oid result) (identifierBy (lookup key w)) in
      let config := set_cfg_identifier identifier (config_at w c) in
      (Done, set_cstore (<[c := config]> (cstore w)) w, Some (MConfig config))
  end.

(** [getHit]; [root] is the display tree under [scope.container].  The
    third component is the message posted, if any. *)
Definition getHit (root : item) (x y : float) (w : World)
    : Outcome * World * option Message :=
  match findTopmostObjectAtPosition root x y with
  | None => (Done, w, Some MNull)
  | Some result =>
      match item_kind result with
      | KSprite => post_config Sprite result w
      | KGraphics => post_config Graphic result w
      | KContainer => (Done, w, None)
      end
  end.




(** ** Definitions of the statements *)

(** [a <= b] on binary64 numbers; it fails when either is NaN. *)
Definition fle (a b : float) : Prop := (a <=? b)%float = true.

(** The point lies within the bounds of [c], inclusively on all four
    edges; the right and the bottom edge are the binary64 sums [x + width]
    and [y + height]. *)
Definition hits (x y : float) (c : item) : Prop :=
  fle (bounds_x (item_bounds c)) x
  ∧ fle x (bounds_x (item_bounds c) + bounds_width (item_bounds c))%float
  ∧ fle (bounds_y (item_bounds c)) y
  ∧ fle y (bounds_y (item_bounds c) + bounds_height (item_bounds c))%float.

(** Two binary64 numbers that are the same number: equal, or both a
    zero (JavaScript's [===] does not tell [-0] from [+0]). *)
Definition same_value_zero (a b : float) : Prop :=
  a = b ∨ (is_zero a = true ∧ is_zero b = true).

(** The traversal in the words of the specification.  [visits x y c path]:
    [path] lists, level by level from [c] downwards, the candidates of a
    query at [(x, y)].  At a level either no child is hit and the path
    ends, or the candidate is the first child hit in reverse insertion
    order: every sibling inserted after it misses, the siblings inserted
    before it are not looked at, and the path continues inside the
    candidate. *)
Inductive visits (x y : float) : item → list item → Prop :=
  | visits_miss c :
      Forall (λ ch, ¬ hits x y ch) (item_children c) →
      visits x y c []
  | visits_hit c before child after path :
      item_children c = before ++ child :: after →
      hits x y child →
      Forall (λ ch, ¬ hits x y ch) after →
      visits x y child path →
      visits x y c (child :: path).

(** The best candidate after the candidates of [path] have been compared,
    deepest first, against [topmostObject]. *)
Fixpoint best_from (topmostObject : option item) (path : list item)
    : option item :=
  match path with
  | [] => topmostObject
  | c :: path' => update_topmost (best_from topmostObject path') c
  end.


(** The entries that [clean] removes: those whose identifier is not a key
    of the new section. *)
Definition stale (set : list string) (entries : list (string * obj))
    : list (string * obj) :=
  filter (λ e, e.1 ∉ set) entries.

(** The entries of a kind's identifier->object view that [clean] removes
    for a given section: none when the section is [undefined]. *)
Definition removed (current : Section_) (l : Lookup) : list (string * obj) :=
  match current with
  | None => []
  | Some cur => stale cur.*1 (byIdentifier l)
  end.

(** The kinds that [prepare] cleans. *)
Definition cleaned (key : LookupKey) : Prop :=
  key = Sprite ∨ key = Graphic ∨ key = Filter.

(** The objects listed under a tag; an absent bucket lists none. *)
Definition bucket (tag : string) (l : Lookup) : list obj :=
  default [] (JsMap.get tag (byTag l)).

(** The tag a config declares, as [create] tests it: the [tag] property
    when it is a non-empty string. *)
Definition declares_tag (config : Config) (tag : string) : Prop :=
  cfg_tag config = Some tag ∧ tag ≠ EmptyString.

(** What the claims about sprites and graphics read: both registries and
    the log of factory calls. *)
Definition visuals (w : World)
    : Lookup * Lookup * list (LookupKey * string * obj) :=
  (lookup_Sprite w, lookup_Graphic w, made w).

Definition keeps_visuals (c : Call) : Prop :=
  ∀ w, visuals (c w).2 = visuals w.

(** The assumption on the absent parts of the repository: the setters, the
    filter and transition configuration and the ticker callback neither
    touch the sprite and graphic registries nor call their factories. *)
Record well_behaved (E : Collaborators) : Prop := mkWellBehaved {
  wb_setSprite : ∀ o c, keeps_visuals (setSprite E o c);
  wb_drawGraphic : ∀ o c, keeps_visuals (drawGraphic E o c);
  wb_configureFilters : ∀ input, keeps_visuals (configureFilters E input);
  wb_configureTransitions :
    ∀ input, keeps_visuals (configureTransitions E input);
  wb_performTransitions : keeps_visuals (performTransitions E);
}.


(** The kinds that [create] of [visuals/index.ts] handles. *)
Definition visual (key : LookupKey) : Prop := key = Sprite ∨ key = Graphic.

(** Lines 116-119 of [prepare]. *)
Definition cleanup (input : Input) (w : World) : World :=
  clear_transitions_and_graph
    (clean_all input (set_alias (in_Alias input) w)).

(** The first three steps of [configure]. *)
Definition registered (input : Input) (w : World) : World :=
  create (in_Sprite input) Sprite
    (create (in_Graphic input) Graphic
       (set_childrenByIdentifier JsMap.empty w)).

(** The rest of [configure] and of [prepare]. *)
Definition finish (E : Collaborators) (input : Input) : Call :=
  (formRelationships &>
   setupMasks (in_Sprite input) &>
   initialize Sprite (setSprite E) &>
   initialize Graphic (drawGraphic E)) &>
  configureFilters E input &>
  configureTransitions E input &>
  pure sortChildren &>
  performTransitions E.

(** ** Scenarios *)

(** Config objects: two tagged sprites, the config of a later snapshot, a
    sprite whose parent is known to the alias table only, and a sprite with
    an empty tag. *)
Definition demo_store : gmap cref Config :=
  <[0%nat := mkConfig (Some "hero"%string) None None None None]>
  (<[1%nat := mkConfig (Some "hero"%string) None None (Some 5%Q) None]>
  (<[2%nat := mkConfig None None None None None]>
  (<[3%nat := mkConfig None (Some "ghost"%string) None None None]>
  (<[4%nat := mkConfig (Some EmptyString) None None None None]> ∅)))).

Definition demo_input (sprites : Section_)
    (table : gmap string string) : Input :=
  mkInput sprites (Some []) (Some []) (Some []) (Some table).

(** Snapshot [{a, b}], then snapshot [{a}]. *)
Definition snapshot_ab : Input :=
  demo_input (Some [("a"%string, 0%nat); ("b"%string, 1%nat)]) ∅.

Definition snapshot_a : Input :=
  demo_input (Some [("a"%string, 2%nat)]) ∅.

(** A child whose parent ["ghost"] is no sprite; the alias table sends it
    to an asset path that is no sprite either. *)
Definition snapshot_orphan : Input :=
  demo_input (Some [("child"%string, 3%nat)])
    (<["ghost"%string := "nowhere.png"%string]> ∅).

Definition snapshot_empty_tag : Input :=
  demo_input (Some [("e"%string, 4%nat)]) ∅.

(** A snapshot without a sprite section. *)
Definition snapshot_no_sprites : Input :=
  mkInput None (Some []) (Some []) (Some []) (Some ∅).

Definition demo_scope : World := set_cstore demo_store (createScope false).

Definition after_ab : World := (prepare idle true snapshot_ab demo_scope).2.










(** The display tree after [snapshot_ab]: two overlapping sprites, ["b"]
    inserted first and with the higher z-index. *)
Definition sprite_a : item :=
  Item 0%nat KSprite (mkBounds 0 0 10 10) 0 [].

Definition sprite_b : item :=
  Item 1%nat KSprite (mkBounds 5 5 10 10) 5 [].

Definition demo_root (children : list item) : item :=
  Item 99%nat KContainer (mkBounds 0 0 100 100) 0 children.

(** ** Definitions of the further properties *)

(** The invariant of a kind's identifier->object view: no identifier
    twice, no object under two identifiers, and every object handed out by
    the allocator of the factories. *)
Definition registry_inv (key : LookupKey) (w : World) : Prop :=
  NoDup (byIdentifier (lookup key w)).*1
  ∧ NoDup (byIdentifier (lookup key w)).*2
  ∧ Forall (λ o, (o < next_obj w)%nat) (byIdentifier (lookup key w)).*2.

(** A call never moves the allocator backwards. *)
Definition keeps_allocator (c : Call) : Prop :=
  ∀ w, (next_obj w ≤ next_obj (c w).2)%nat.

(** The same assumption for the absent parts of the repository. *)
Record allocator_forward (E : Collaborators) : Prop := mkAllocatorForward {
  af_setSprite : ∀ o c, keeps_allocator (setSprite E o c);
  af_drawGraphic : ∀ o c, keeps_allocator (drawGraphic E o c);
  af_configureFilters : ∀ input, keeps_allocator (configureFilters E input);
  af_configureTransitions :
    ∀ input, keeps_allocator (configureTransitions E input);
  af_performTransitions : keeps_allocator (performTransitions E);
}.

(** The children staged under a parent identifier; an absent entry stages
    none. *)
Definition staged (parent : string) (w : World) : list obj :=
  default [] (JsMap.get parent (childrenByIdentifier w)).

(** The parent a config declares, as [create] tests it. *)
Definition declares_parent (config : Config) (parent : string) : Prop :=
  cfg_parent config = Some parent ∧ parent ≠ EmptyString.

(** [rootParent] of [visuals/index.ts]: the frame of the screen, given its
    width and height. *)
Definition rootParent (screen_width screen_height : float) : Parent :=
  mkParent (screen_width / 2) (screen_height / 2) screen_width screen_height.

(** A further scenario: the sprite ["kid"] declares the parent ["mama"],
    which the alias table sends to the sprite ["mom"], and the mask
    ["hole"], which no graphic has. *)
Definition family_store : gmap cref Config :=
  <[5%nat := mkConfig None (Some "mama"%string) (Some "hole"%string) None
               None]> demo_store.

Definition snapshot_family : Input :=
  demo_input (Some [("mom"%string, 2%nat); ("kid"%string, 5%nat)])
    (<["mama"%string := "mom"%string]> ∅).

Definition staged_family : World :=
  registered snapshot_family
    (cleanup snapshot_family (set_cstore family_store (createScope false))).

(** A larger family: ["sis"] names the sprite ["mom"] as parent by its
    identifier, ["kid"] names it through the alias ["mama"], and ["bro"]
    names the sprite ["dad"]. *)
Definition clan_store : gmap cref Config :=
  <[7%nat := mkConfig None None None None None]>
  (<[8%nat := mkConfig None (Some "mom"%string) None None None]>
  (<[9%nat := mkConfig None (Some "dad"%string) None None None]>
   family_store)).

Definition snapshot_clan : Input :=
  demo_input
    (Some [("mom"%string, 2%nat); ("dad"%string, 7%nat);
           ("sis"%string, 8%nat); ("kid"%string, 5%nat);
           ("bro"%string, 9%nat)])
    (<["mama"%string := "mom"%string]> ∅).

Definition staged_clan : World :=
  registered snapshot_clan
    (cleanup snapshot_clan (set_cstore clan_store (createScope false))).

(** A sprite that names ["toString"] as its parent, with an alias table
    that has no entry of its own for it. *)
Definition inherited_store : gmap cref Config :=
  <[10%nat := mkConfig None (Some "toString"%string) None None None]>
  demo_store.

Definition snapshot_inherited : Input :=
  demo_input (Some [("child"%string, 10%nat)]) ∅.

(** * Properties *)

(** ** JavaScript [Map] *)

Section jsmap_facts.
Context {K V : Type} `{EqDecision K}.
Implicit Types (k : K) (v : V) (m : JsMap.t K V).

Lemma JsMap_get_set_eq k v m : JsMap.get k (JsMap.set k v m) = Some v.
Proof.
  induction m as [|[k' v'] m IH]; simpl.
  - by rewrite decide_True.
  - destruct (decide (k = k')) as [->|Hne]; simpl.
    + by rewrite decide_True.
    + by rewrite decide_False.
Qed.

Lemma JsMap_get_set_ne k k' v m :
  k ≠ k' → JsMap.get k (JsMap.set k' v m) = JsMap.get k m.
Proof.
  intros Hne. induction m as [|[k2 v2] m IH]; simpl.
  - by rewrite decide_False.
  - destruct (decide (k' = k2)) as [->|Hne2]; simpl.
    + by rewrite !decide_False.
    + destruct (decide (k = k2)); auto.
Qed.

Lemma JsMap_get_set k k' v m :
  JsMap.get k (JsMap.set k' v m)
  = if decide (k = k') then Some v else JsMap.get k m.
Proof.
  destruct (decide (k = k')) as [->|Hne].
  - apply JsMap_get_set_eq.
  - by apply JsMap_get_set_ne.
Qed.

Lemma JsMap_get_delete_eq k m : JsMap.get k (JsMap.delete k m) = None.
Proof.
  induction m as [|[k' v'] m IH]; simpl; [done|].
  destruct (decide (k = k')) as [->|Hne]; simpl; [done|].
  by rewrite decide_False.
Qed.

Lemma JsMap_get_delete_ne k k' m :
  k ≠ k' → JsMap.get k (JsMap.delete k' m) = JsMap.get k m.
Proof.
  intros Hne. induction m as [|[k2 v2] m IH]; simpl; [done|].
  destruct (decide (k' = k2)) as [->|Hne2]; simpl.
  - by rewrite decide_False.
  - destruct (decide (k = k2)); auto.
Qed.

Lemma JsMap_get_delete k k' m :
  JsMap.get k (JsMap.delete k' m)
  = if decide (k = k') then None else JsMap.get k m.
Proof.
  destruct (decide (k = k')) as [->|Hne].
  - apply JsMap_get_delete_eq.
  - by apply JsMap_get_delete_ne.
Qed.

Lemma JsMap_get_Some_elem k v m : JsMap.get k m = Some v → (k, v) ∈ m.
Proof.
  induction m as [|[k' v'] m IH]; simpl; [done|].
  destruct (decide (k = k')) as [->|Hne].
  - intros [= ->]. left.
  - intros H. right. auto.
Qed.

Lemma JsMap_get_Some_keys k v m : JsMap.get k m = Some v → k ∈ m.*1.
Proof.
  intros Hget%JsMap_get_Some_elem. apply list_elem_of_fmap. by exists (k, v).
Qed.

Lemma JsMap_set_same k v m : JsMap.get k m = Some v → JsMap.set k v m = m.
Proof.
  induction m as [|[k' v'] m IH]; simpl; [done|].
  destruct (decide (k = k')) as [->|Hne].
  - by intros [= ->].
  - intros Hget. by rewrite IH.
Qed.
End jsmap_facts.

(** ** The anchored position resolver *)

(** *** Binary64 numbers *)

Lemma Prim2SF_is_finite f :
  is_finite f = true →
  (∃ s, Prim2SF f = S754_zero s) ∨ (∃ s m e, Prim2SF f = S754_finite s m e).
Proof.
  unfold is_finite. rewrite negb_true_iff, orb_false_iff. intros [Hnan Hinf].
  unfold Prim2SF. rewrite Hnan, Hinf.
  destruct (is_zero f); [left; eauto|].
  destruct (Z.frexp f) as [r exp].
  destruct (shr_fexp _ _ _ _ _) as [shr e'].
  destruct (shr_m shr); [left | right | left]; eauto.
Qed.

Lemma Prim2SF_zero_is_zero f s : Prim2SF f = S754_zero s → is_zero f = true.
Proof.
  intros Hf. unfold is_zero. rewrite FloatAxioms.eqb_spec, Hf. reflexivity.
Qed.

(** Zero times a finite number is a zero. *)
Lemma mul_zero_l s :
  is_finite s = true → ∃ b, Prim2SF (0 * s)%float = S754_zero b.
Proof.
  intros Hs. rewrite mul_spec.
  destruct (Prim2SF_is_finite s Hs) as [[b ->]|(b & m & e & ->)];
    simpl; eauto.
Qed.

Lemma mul_zero_r s :
  is_finite s = true → ∃ b, Prim2SF (s * 0)%float = S754_zero b.
Proof.
  intros Hs. rewrite mul_spec.
  destruct (Prim2SF_is_finite s Hs) as [[b ->]|(b & m & e & ->)];
    simpl; eauto.
Qed.

(** Adding a zero changes nothing but, possibly, the sign of a zero. *)
Lemma add_zero_r a z b :
  Prim2SF z = S754_zero b → same_value_zero (a + z)%float a.
Proof.
  intros Hz.
  destruct (Prim2SF a) as [sa|sa| |sa m e] eqn:Ha.
  - right. split; [|by eapply Prim2SF_zero_is_zero].
    apply (Prim2SF_zero_is_zero _ (if Bool.eqb sa b then sa else false)).
    rewrite add_spec, Ha, Hz. by destruct sa, b.
  - left. apply Prim2SF_inj. by rewrite add_spec, Ha, Hz.
  - left. apply Prim2SF_inj. by rewrite add_spec, Ha, Hz.
  - left. apply Prim2SF_inj. by rewrite add_spec, Ha, Hz.
Qed.

Lemma same_value_zero_trans a b c :
  same_value_zero a b → same_value_zero b c → same_value_zero a c.
Proof.
  intros [->|[Ha Hb]] [->|[Hb' Hc]];
    [by left | by right | by right | by right].
Qed.

(** With value 0 and self anchor 0.5 the last two terms of the sum are
    zeros, for a finite self extent and a finite unit. *)
Lemma centred_terms_vanish (a s u : float) :
  is_finite s = true → is_finite u = true →
  same_value_zero (a + (0.5 - 0.5) * s + u * 0)%float a.
Proof.
  intros Hs Hu.
  change (0.5 - 0.5)%float with 0%float.
  destruct (mul_zero_l s Hs) as [b1 H1]. destruct (mul_zero_r u Hu) as [b2 H2].
  eapply same_value_zero_trans; by eapply add_zero_r.
Qed.

(** *** [resolvePosition] *)

(** C4 (amended). For every position, axis, self size and parent frame,
    [resolvePosition] is the binary64 value of: the parent's coordinate on
    the axis, minus half the unit, plus the parent anchor times the unit,
    plus (0.5 - self anchor) times the self extent on the axis, plus the
    unit times the value, computed in this order, where the unit is the
    parent's width on x and its height on y.  With value 0 and
    both anchors 0.5, a finite self extent and a finite unit, the self size
    drops out: the result is (center - unit / 2) + 0.5 * unit as binary64
    computes it (up to the sign of a zero), which is the parent's center up
    to the rounding of these two operations.  With parent frame x = 100,
    width = 200, value 0.25, both anchors 0.5 and self width 0 the result
    is 150. *)
Theorem resolvePosition_spec :
  (∀ v a_self a_parent dimension self parent,
     let unit := match dimension with
                 | X => parent_width parent
                 | Y => parent_height parent
                 end in
     let center := match dimension with
                   | X => parent_x parent
                   | Y => parent_y parent
                   end in
     let extent := match dimension with
                   | X => width self
                   | Y => height self
                   end in
     resolvePosition (mkPosition v a_self a_parent) dimension self parent
     = (center - unit / 2 + a_parent * unit + (0.5 - a_self) * extent
        + unit * v)%float)
  ∧ (∀ dimension self parent,
       let unit := match dimension with
                   | X => parent_width parent
                   | Y => parent_height parent
                   end in
       let center := match dimension with
                     | X => parent_x parent
                     | Y => parent_y parent
                     end in
       let extent := match dimension with
                     | X => width self
                     | Y => height self
                     end in
       is_finite extent = true → is_finite unit = true →
       same_value_zero
         (resolvePosition (mkPosition 0 0.5 0.5) dimension self parent)
         (center - unit / 2 + 0.5 * unit)%float)
  ∧ (∀ self_height y h,
       resolvePosition (mkPosition 0.25 0.5 0.5) X (mkSize 0 self_height)
         (mkParent 100 y 200 h) = 150%float).
Proof.
  split; [|split].
  - by intros v a_self a_parent [] self parent.
  - intros [] self parent unit center extent Hs Hu;
      by apply centred_terms_vanish.
  - intros self_height y h. vm_compute. reflexivity.
Qed.

(** Centred in a frame at 100 of width 200, a sprite 7 wide resolves to
    (100 - 100) + 100. *)
Lemma resolvePosition_spec_witness :
  same_value_zero
    (resolvePosition (mkPosition 0 0.5 0.5) X (mkSize 7 3)
       (mkParent 100 0 200 0))
    (100 - 200 / 2 + 0.5 * 200)%float.
Proof.
  apply (proj1 (proj2 resolvePosition_spec) X (mkSize 7 3)
           (mkParent 100 0 200 0)); vm_compute; reflexivity.
Defined.

(** C4 (counterexample). Centred in a frame whose center is 100.1 and
    whose width is 800, a point does not resolve to 100.1 but to
    100.10000000000002; and with an infinite self width the result is not
    a number. *)
Lemma resolvePosition_misses_center :
  resolvePosition (mkPosition 0 0.5 0.5) X point (mkParent 100.1 0 800 0)
  = 100.10000000000002%float
  ∧ (resolvePosition (mkPosition 0 0.5 0.5) X point (mkParent 100.1 0 800 0)
     =? parent_x (mkParent 100.1 0 800 0))%float = false
  ∧ resolvePosition (mkPosition 0 0.5 0.5) X point (mkParent 100.1 0 800 0)
    ≠ parent_x (mkParent 100.1 0 800 0)
  ∧ is_nan (resolvePosition (mkPosition 0 0.5 0.5) X (mkSize infinity 0)
              (mkParent 100 0 200 0)) = true.
Proof.
  split_and!; [by vm_compute | by vm_compute | | by vm_compute].
  intros Heq.
  apply (f_equal (λ f, (f =? 100.1)%float)) in Heq. vm_compute in Heq.
  discriminate.
Qed.

(** ** The hit tester *)

Lemma within_hits c x y : within (item_bounds c) x y = true ↔ hits x y c.
Proof.
  unfold within, hits, fle. rewrite !andb_true_iff. tauto.
Qed.

Lemma Qgt_bool_true a b : Qgt_bool a b = true ↔ (b < a)%Q.
Proof.
  unfold Qgt_bool. rewrite negb_true_iff, <- not_true_iff_false, Qle_bool_iff.
  split; [apply Qnot_le_lt | apply Qlt_not_le].
Qed.

Lemma Qgt_bool_false a b : Qgt_bool a b = false ↔ (a <= b)%Q.
Proof.
  unfold Qgt_bool. rewrite negb_false_iff. apply Qle_bool_iff.
Qed.

Lemma levels_child c child :
  child ∈ item_children c → (levels child < levels c)%nat.
Proof.
  destruct c as [o k b z cs]; simpl. intros Hin.
  apply Nat.lt_succ_r. induction cs as [|c' cs IH]; simpl.
  - by apply elem_of_nil in Hin.
  - apply elem_of_cons in Hin as [->|Hin]; [lia|].
    specialize (IH Hin). lia.
Qed.

(** What the loop does from index [i - 1] downwards: nothing if every
    child below [i] misses; otherwise it stops at the last child below [i]
    that is hit. *)
Lemma traverse_loop_scan recurse children x y i top :
  (i ≤ length children)%nat →
  (Forall (λ ch, ¬ hits x y ch) (take i children)
   ∧ traverse_loop recurse children x y i top = Some top)
  ∨ (∃ before child after,
       take i children = before ++ child :: after
       ∧ hits x y child
       ∧ Forall (λ ch, ¬ hits x y ch) after
       ∧ traverse_loop recurse children x y i top
         = (top' ← (if isSceneItem child
                       && negb (Nat.eqb (length (item_children child)) 0)
                    then recurse child top else Some top);
            Some (update_topmost top' child))).
Proof.
  induction i as [|j IH]; intros Hi.
  - left. by rewrite take_0.
  - destruct (lookup_lt_is_Some_2 children j) as [child Hchild]; [lia|].
    rewrite (take_S_r _ _ _ Hchild). simpl. rewrite Hchild.
    destruct (within (item_bounds child) x y) eqn:Hw.
    + right. exists (take j children), child, [].
      apply within_hits in Hw. split_and!; [done | done | constructor | done].
    + assert (¬ hits x y child) as Hmiss.
      { rewrite <- within_hits. by rewrite Hw. }
      destruct IH
        as [[Hall Heq]|(before & c & after & Htake & Hc & Hall & Heq)];
        [lia| |].
      * left. split; [|done]. apply Forall_app. split; [done|].
        by apply Forall_singleton.
      * right. exists before, c, (after ++ [child]).
        rewrite Htake, <- app_assoc. simpl. split_and!; try done.
        apply Forall_app. split; [done|]. by apply Forall_singleton.
Qed.

(** With fuel for every level of the tree, [traverse] returns, and what it
    returns is the comparison of the candidates of the specification. *)
Lemma traverse_visits x y fuel : ∀ c top,
  (levels c ≤ fuel)%nat →
  ∃ path, visits x y c path
          ∧ traverse fuel x y c top = Some (best_from top path).
Proof.
  induction fuel as [|fuel IH]; intros c top Hfuel.
  - destruct c; simpl in Hfuel; lia.
  - simpl.
    destruct (traverse_loop_scan (traverse fuel x y) (item_children c) x y
                (length (item_children c)) top)
      as [[Hall Heq]|(before & child & after & Htake & Hc & Hall & Heq)];
      [lia| |]; rewrite firstn_all in *.
    + exists []. split; [by constructor | done].
    + assert (child ∈ item_children c) as Hin.
      { rewrite Htake. apply elem_of_app. right. left. }
      apply levels_child in Hin.
      assert (isSceneItem child = true) as Hscene.
      { unfold isSceneItem. by destruct (item_kind child). }
      rewrite Heq, Hscene. simpl.
      destruct (item_children child) as [|g gs] eqn:Hkids; simpl.
      * exists [child]. split; [|done].
        eapply visits_hit; eauto. constructor. rewrite Hkids. constructor.
      * destruct (IH child top) as (path & Hpath & Htr); [lia|].
        exists (child :: path). split.
        -- eapply visits_hit; eauto.
        -- rewrite Htr. reflexivity.
Qed.

Lemma first_hit_prefix {A} (P : A → Prop) l1 c1 r1 l2 c2 r2 :
  l1 ++ c1 :: r1 = l2 ++ c2 :: r2 →
  Forall (λ a, ¬ P a) l1 → Forall (λ a, ¬ P a) l2 → P c1 → P c2 →
  l1 = l2 ∧ c1 = c2 ∧ r1 = r2.
Proof.
  revert l2. induction l1 as [|a l1 IH]; intros [|b l2] Heq H1 H2 Hc1 Hc2;
    simpl in Heq.
  - by simplify_eq.
  - simplify_eq. apply Forall_cons in H2 as [Hb _]. done.
  - simplify_eq. apply Forall_cons in H1 as [Ha _]. done.
  - injection Heq as Hab Heq.
    apply Forall_cons in H1 as [_ H1]. apply Forall_cons in H2 as [_ H2].
    destruct (IH l2 Heq H1 H2 Hc1 Hc2) as (-> & -> & ->). by rewrite Hab.
Qed.

Lemma last_hit_suffix {A} (P : A → Prop) b1 c1 a1 b2 c2 a2 :
  b1 ++ c1 :: a1 = b2 ++ c2 :: a2 →
  Forall (λ a, ¬ P a) a1 → Forall (λ a, ¬ P a) a2 → P c1 → P c2 →
  b1 = b2 ∧ c1 = c2 ∧ a1 = a2.
Proof.
  intros Heq H1 H2 Hc1 Hc2.
  apply (f_equal reverse) in Heq.
  rewrite !reverse_app, !reverse_cons, <- !app_assoc in Heq. simpl in Heq.
  apply (first_hit_prefix P) in Heq as (Ha & Hc & Hb);
    try done; try by apply Forall_reverse.
  split; [|split]; [| done |].
  - by apply (inj reverse).
  - by apply (inj reverse).
Qed.

Lemma visits_functional x y c p1 :
  visits x y c p1 → ∀ p2, visits x y c p2 → p2 = p1.
Proof.
  induction 1 as [c Hall|c before child after path Hsplit Hc Hall Hrec IH];
    intros p2 Hp2.
  - destruct Hp2 as [|c b2 ch2 a2 path2 Hsplit2 Hc2]; [done|].
    rewrite Hsplit2 in Hall. apply Forall_app in Hall as [_ Hall].
    apply Forall_cons in Hall as [Hmiss _]. done.
  - destruct Hp2 as [c Hall2|c b2 ch2 a2 path2 Hsplit2 Hc2 Hall2 Hrec2].
    + rewrite Hsplit in Hall2. apply Forall_app in Hall2 as [_ Hall2].
      apply Forall_cons in Hall2 as [Hmiss _]. done.
    + rewrite Hsplit in Hsplit2.
      apply (last_hit_suffix (hits x y)) in Hsplit2 as (_ & -> & _);
        try done.
      f_equal. by apply IH.
Qed.

Lemma best_from_None_inv path : best_from None path = None → path = [].
Proof.
  destruct path as [|c path]; [done|]. simpl.
  destruct (best_from None path) as [t|]; simpl; [|done].
  by destruct (Qgt_bool _ _).
Qed.

Lemma best_from_highest path r :
  best_from None path = Some r →
  r ∈ path ∧ ∀ c, c ∈ path → (item_zIndex c <= item_zIndex r)%Q.
Proof.
  revert r. induction path as [|c path IH]; intros r; simpl; [done|].
  destruct (best_from None path) as [t|] eqn:Hbest; simpl.
  - destruct (IH t eq_refl) as [Hin Hmax].
    destruct (Qgt_bool (item_zIndex c) (item_zIndex t)) eqn:Hcmp;
      intros [= <-].
    + apply Qgt_bool_true in Hcmp. split; [left|].
      intros c' [->|Hc']%elem_of_cons; [apply Qle_refl|].
      apply Qlt_le_weak. eapply Qle_lt_trans; [by apply Hmax | done].
    + apply Qgt_bool_false in Hcmp. split; [by right|].
      intros c' [->|Hc']%elem_of_cons; [done | by apply Hmax].
  - intros [= <-]. apply best_from_None_inv in Hbest as ->.
    split; [left|]. intros c' [->|Hc']%elem_of_cons; [apply Qle_refl|].
    by apply elem_of_nil in Hc'.
Qed.

Lemma findTopmost_visits root x y :
  ∃ path, visits x y root path
          ∧ findTopmostObjectAtPosition root x y = best_from None path.
Proof.
  destruct (traverse_visits x y (levels root) root None) as (path & Hv & Htr);
    [done|].
  exists path. split; [done|].
  unfold findTopmostObjectAtPosition. by rewrite Htr.
Qed.

(** C5. A query has exactly one list of candidates in the sense of
    [visits]: at every level the children are scanned in reverse insertion
    order, a child is hit exactly when the point is within its bounds with
    all four edges included, the scan of a level stops at the first child
    hit and continues inside it.  [findTopmostObjectAtPosition] returns no
    object when there is no candidate, and otherwise a candidate whose
    z-index no candidate of any level exceeds. *)
Theorem findTopmostObjectAtPosition_spec (root : item) (x y : float) :
  ∃ path,
    visits x y root path
    ∧ (∀ path', visits x y root path' → path' = path)
    ∧ match findTopmostObjectAtPosition root x y with
      | None => path = []
      | Some r =>
          r ∈ path
          ∧ ∀ c, c ∈ path → (item_zIndex c <= item_zIndex r)%Q
      end.
Proof.
  destruct (findTopmost_visits root x y) as (path & Hv & Hfind).
  exists path. split; [done|]. split; [by apply visits_functional|].
  rewrite Hfind.
  destruct (best_from None path) as [r|] eqn:Hbest.
  - by apply best_from_highest.
  - by apply best_from_None_inv.
Qed.

(** *** Sorted children *)

Lemma elem_of_insert_by_z {A} (z : A → Q) a l c :
  c ∈ insert_by_z z a l ↔ c = a ∨ c ∈ l.
Proof.
  induction l as [|b l IH]; simpl.
  - rewrite list_elem_of_singleton, elem_of_nil. tauto.
  - destruct (Qlt_le_dec (z a) (z b)).
    + by rewrite elem_of_cons.
    + rewrite !elem_of_cons, IH. tauto.
Qed.

Lemma elem_of_sort_by_z {A} (z : A → Q) l c : c ∈ sort_by_z z l ↔ c ∈ l.
Proof.
  unfold sort_by_z.
  assert (∀ acc, c ∈ foldl (λ acc a, insert_by_z z a acc) acc l
                 ↔ c ∈ acc ∨ c ∈ l) as Hgen.
  { induction l as [|a l IH]; intros acc; simpl.
    - rewrite elem_of_nil. tauto.
    - rewrite IH, elem_of_insert_by_z, elem_of_cons. tauto. }
  rewrite Hgen, elem_of_nil. tauto.
Qed.





Lemma post_config_done key r w c :
  JsMap.get (item_oid r) (configBy (lookup key w)) = Some c →
  post_config key r w
  = (Done,
     set_cstore
       (<[c := set_cfg_identifier
                 (JsMap.get (item_oid r) (identifierBy (lookup key w)))
                 (config_at w c)]> (cstore w)) w,
     Some (MConfig
             (set_cfg_identifier
                (JsMap.get (item_oid r) (identifierBy (lookup key w)))
                (config_at w c)))).
Proof. intros Hc. unfold post_config. by rewrite Hc. Qed.

Lemma getHit_registered root x y w r key :
  findTopmostObjectAtPosition root x y = Some r →
  (item_kind r = KSprite ∧ key = Sprite)
  ∨ (item_kind r = KGraphics ∧ key = Graphic) →
  getHit root x y w = post_config key r w.
Proof.
  intros Hfind Hkind. unfold getHit. rewrite Hfind.
  by destruct Hkind as [[-> ->]|[-> ->]].
Qed.

Lemma lookup_set_cstore key s w : lookup key (set_cstore s w) = lookup key w.
Proof. by destruct key. Qed.







(** C10. When the traversal returns a sprite or a graphic that has a
    config in its kind's registry, [getHit] completes, stores the
    identifier registered for the object in the config object that the
    object->config view refers to, and posts that config.  The registry
    still refers to the same config object afterwards, which now carries
    the identifier; unless the config carried it already, the state after
    the query differs from the state before. *)
Theorem getHit_writes_identifier (root : item) (x y : float) (w : World)
    (r : item) (key : LookupKey) (c : cref) :
  findTopmostObjectAtPosition root x y = Some r →
  (item_kind r = KSprite ∧ key = Sprite)
  ∨ (item_kind r = KGraphics ∧ key = Graphic) →
  JsMap.get (item_oid r) (configBy (lookup key w)) = Some c →
  let identifier := JsMap.get (item_oid r) (identifierBy (lookup key w)) in
  let written := set_cfg_identifier identifier (config_at w c) in
  ∃ w',
    getHit root x y w = (Done, w', Some (MConfig written))
    ∧ JsMap.get (item_oid r) (configBy (lookup key w')) = Some c
    ∧ cstore w' !! c = Some written
    ∧ cfg_identifier (config_at w' c) = identifier
    ∧ (cfg_identifier (config_at w c) ≠ identifier → w' ≠ w).
Proof.
  intros Hfind Hkind Hc identifier written.
  exists (set_cstore (<[c := written]> (cstore w)) w).
  assert (cstore (set_cstore (<[c := written]> (cstore w)) w) !! c
          = Some written) as Hstored.
  { simpl. apply lookup_insert_eq. }
  split_and!.
  - rewrite (getHit_registered _ _ _ _ _ key Hfind Hkind).
    by rewrite (post_config_done _ _ _ _ Hc).
  - by rewrite lookup_set_cstore.
  - done.
  - unfold config_at. by rewrite Hstored.
  - intros Hdiff Heq. apply Hdiff.
    unfold config_at at 1. rewrite <- Heq, Hstored. done.
Qed.

Lemma getHit_writes_identifier_witness :
  ∃ w',
    getHit (demo_root [sprite_a; sprite_b]) 7 7 after_ab
    = (Done, w',
       Some (MConfig (set_cfg_identifier (Some "b"%string)
                        (config_at after_ab 1%nat))))
    ∧ cfg_identifier (config_at after_ab 1%nat) = None
    ∧ cfg_identifier (config_at w' 1%nat) = Some "b"%string
    ∧ w' ≠ after_ab.
Proof.
  destruct (getHit_writes_identifier (demo_root [sprite_a; sprite_b]) 7 7
              after_ab sprite_b Sprite 1%nat)
    as (w' & Hhit & _ & _ & Hid & Hdiff);
    [by vm_compute | by left | by vm_compute |].
  exists w'. split_and!; [exact Hhit | by vm_compute | exact Hid |].
  apply Hdiff. by vm_compute.
Defined.

(** ** The reconciler *)

(** *** Reading a state after an update *)

Lemma lookup_set_lookup key key' l w :
  lookup key (set_lookup key' l w)
  = if decide (key = key') then l else lookup key w.
Proof. by destruct key, key'. Qed.

Lemma lookup_set_lookup_eq key l w : lookup key (set_lookup key l w) = l.
Proof. rewrite lookup_set_lookup. by rewrite decide_True. Qed.

Lemma lookup_set_lookup_ne key key' l w :
  key ≠ key' → lookup key (set_lookup key' l w) = lookup key w.
Proof. intros. rewrite lookup_set_lookup. by rewrite decide_False. Qed.

Lemma lookup_destroy key item w : lookup key (destroy item w) = lookup key w.
Proof. by destruct key. Qed.

Lemma lookup_set_alias key a w : lookup key (set_alias a w) = lookup key w.
Proof. by destruct key. Qed.

Lemma lookup_set_graph key cbp pbc w :
  lookup key (set_graph cbp pbc w) = lookup key w.
Proof. by destruct key. Qed.

Lemma lookup_set_childrenByIdentifier key m w :
  lookup key (set_childrenByIdentifier m w) = lookup key w.
Proof. by destruct key. Qed.

Lemma lookup_set_factory key n m w :
  lookup key (set_factory n m w) = lookup key w.
Proof. by destruct key. Qed.

Lemma lookup_set_filtersOf key f w :
  lookup key (set_filtersOf f w) = lookup key w.
Proof. by destruct key. Qed.

(** *** [clean] *)

Lemma stale_cons_keep set identifier item entries :
  identifier ∈ set →
  stale set ((identifier, item) :: entries) = stale set entries.
Proof.
  intros Hin. unfold stale. by rewrite filter_cons_False by naive_solver.
Qed.

Lemma stale_cons_drop set identifier item entries :
  identifier ∉ set →
  stale set ((identifier, item) :: entries)
  = (identifier, item) :: stale set entries.
Proof. intros Hin. unfold stale. by rewrite filter_cons_True. Qed.

Lemma stale_step {A B} `{EqDecision A} (a b : A) (l : list A) (v : option B) :
  (if bool_decide (a ∈ l) then None else if decide (a = b) then None else v)
  = if bool_decide (a ∈ b :: l) then None else v.
Proof.
  destruct (decide (a = b)) as [->|Hne].
  - rewrite (bool_decide_eq_true_2 (b ∈ b :: l)) by left.
    by case_bool_decide.
  - rewrite (bool_decide_ext (a ∈ b :: l) (a ∈ l)); [done|].
    rewrite elem_of_cons. tauto.
Qed.

(** The state after the loop of [clean], view by view. *)
Lemma clean_entries_spec key set entries : ∀ w,
  let w' := clean_entries key set entries w in
  (∀ identifier,
     JsMap.get identifier (byIdentifier (lookup key w'))
     = if bool_decide (identifier ∈ (stale set entries).*1) then None
       else JsMap.get identifier (byIdentifier (lookup key w)))
  ∧ (∀ o,
       JsMap.get o (configBy (lookup key w'))
       = if bool_decide (o ∈ (stale set entries).*2) then None
         else JsMap.get o (configBy (lookup key w)))
  ∧ identifierBy (lookup key w') = identifierBy (lookup key w)
  ∧ byTag (lookup key w') = byTag (lookup key w)
  ∧ (∀ key', key' ≠ key → lookup key' w' = lookup key' w)
  ∧ destroyed w' = (destroyed w ++ (stale set entries).*2)%list
  ∧ made w' = made w
  ∧ next_obj w' = next_obj w
  ∧ cstore w' = cstore w.
Proof.
  induction entries as [|[identifier item] entries IH]; intros w; simpl.
  - split_and!; try done. by rewrite app_nil_r.
  - case_bool_decide as Hin.
    + rewrite (stale_cons_keep _ _ _ _ Hin). apply IH.
    + rewrite (stale_cons_drop _ _ _ _ Hin). simpl.
      destruct (IH (destroy item
                      (set_lookup key
                         (mkLookup
                            (JsMap.delete identifier
                               (byIdentifier (lookup key w)))
                            (byTag (lookup key w))
                            (JsMap.delete item (configBy (lookup key w)))
                            (identifierBy (lookup key w))) w)))
        as (Hid & Hcfg & Hidby & Htag & Hother & Hdes & Hmade & Hnext & Hst).
      rewrite lookup_destroy, lookup_set_lookup_eq in *. simpl in *.
      split_and!; try done.
      * intros i. rewrite Hid, JsMap_get_delete. apply stale_step.
      * intros o. rewrite Hcfg, JsMap_get_delete. apply stale_step.
      * intros key' Hne. rewrite (Hother key' Hne), lookup_destroy.
        by apply lookup_set_lookup_ne.
      * by rewrite Hdes, <- app_assoc.
Qed.

Lemma clean_spec current key w :
  let w' := clean current key w in
  let gone := removed current (lookup key w) in
  (∀ identifier,
     JsMap.get identifier (byIdentifier (lookup key w'))
     = if bool_decide (identifier ∈ gone.*1) then None
       else JsMap.get identifier (byIdentifier (lookup key w)))
  ∧ (∀ o,
       JsMap.get o (configBy (lookup key w'))
       = if bool_decide (o ∈ gone.*2) then None
         else JsMap.get o (configBy (lookup key w)))
  ∧ identifierBy (lookup key w') = identifierBy (lookup key w)
  ∧ byTag (lookup key w')
    = (if current is Some _ then JsMap.empty else byTag (lookup key w))
  ∧ (∀ key', key' ≠ key → lookup key' w' = lookup key' w)
  ∧ destroyed w' = (destroyed w ++ gone.*2)%list
  ∧ made w' = made w
  ∧ next_obj w' = next_obj w
  ∧ cstore w' = cstore w.
Proof.
  destruct current as [cur|]; simpl.
  - destruct (clean_entries_spec key cur.*1 (byIdentifier (lookup key w)) w)
      as (Hid & Hcfg & Hidby & Htag & Hother & Hdes & Hmade & Hnext & Hst).
    rewrite lookup_set_lookup_eq. simpl.
    split_and!; try done.
    intros key' Hne. rewrite lookup_set_lookup_ne by done. by apply Hother.
  - split_and!; try done. by rewrite app_nil_r.
Qed.

Lemma clean_all_unfold input w :
  clean_all input w
  = clean (in_Filter input) Filter
      (clean (in_Graphic input) Graphic (clean (in_Sprite input) Sprite w)).
Proof. done. Qed.

(** The three calls of [clean] act on three different registries, so each
    registry sees its own call only. *)
Lemma clean_all_spec input key w :
  cleaned key →
  let w' := clean_all input w in
  let gone := removed (in_section key input) (lookup key w) in
  (∀ identifier,
     JsMap.get identifier (byIdentifier (lookup key w'))
     = if bool_decide (identifier ∈ gone.*1) then None
       else JsMap.get identifier (byIdentifier (lookup key w)))
  ∧ (∀ o,
       JsMap.get o (configBy (lookup key w'))
       = if bool_decide (o ∈ gone.*2) then None
         else JsMap.get o (configBy (lookup key w)))
  ∧ identifierBy (lookup key w') = identifierBy (lookup key w)
  ∧ byTag (lookup key w')
    = (if in_section key input is Some _ then JsMap.empty
       else byTag (lookup key w)).
Proof.
  intros Hkey. rewrite clean_all_unfold. simpl.
  set (w1 := clean (in_Sprite input) Sprite w).
  set (w2 := clean (in_Graphic input) Graphic w1).
  destruct (clean_spec (in_Sprite input) Sprite w)
    as (Hid1 & Hcfg1 & Hidby1 & Htag1 & Hother1 & _).
  destruct (clean_spec (in_Graphic input) Graphic w1)
    as (Hid2 & Hcfg2 & Hidby2 & Htag2 & Hother2 & _).
  destruct (clean_spec (in_Filter input) Filter w2)
    as (Hid3 & Hcfg3 & Hidby3 & Htag3 & Hother3 & _).
  fold w1 in Hid1, Hcfg1, Hidby1, Htag1, Hother1.
  fold w2 in Hid2, Hcfg2, Hidby2, Htag2, Hother2.
  destruct Hkey as [-> | [-> | ->]].
  - rewrite (Hother3 Sprite), (Hother2 Sprite) by done. by split_and!.
  - rewrite (Hother3 Graphic) by done.
    rewrite (Hother1 Graphic) in Hid2, Hcfg2, Hidby2, Htag2 by done.
    by split_and!.
  - rewrite (Hother2 Filter), (Hother1 Filter) in Hid3, Hcfg3, Hidby3, Htag3
      by done.
    by split_and!.
Qed.

Lemma clean_all_rest input w :
  let w' := clean_all input w in
  destroyed w'
  = (destroyed w
     ++ (removed (in_Sprite input) (lookup_Sprite w)).*2
     ++ (removed (in_Graphic input) (lookup_Graphic w)).*2
     ++ (removed (in_Filter input) (lookup_Filter w)).*2)%list
  ∧ made w' = made w
  ∧ next_obj w' = next_obj w
  ∧ cstore w' = cstore w
  ∧ lookup Transition w' = lookup Transition w.
Proof.
  rewrite clean_all_unfold. simpl.
  set (w1 := clean (in_Sprite input) Sprite w).
  set (w2 := clean (in_Graphic input) Graphic w1).
  destruct (clean_spec (in_Sprite input) Sprite w)
    as (_ & _ & _ & _ & Hother1 & Hdes1 & Hmade1 & Hnext1 & Hst1).
  destruct (clean_spec (in_Graphic input) Graphic w1)
    as (_ & _ & _ & _ & Hother2 & Hdes2 & Hmade2 & Hnext2 & Hst2).
  destruct (clean_spec (in_Filter input) Filter w2)
    as (_ & _ & _ & _ & Hother3 & Hdes3 & Hmade3 & Hnext3 & Hst3).
  fold w1 in Hother1, Hdes1, Hmade1, Hnext1, Hst1.
  fold w2 in Hother2, Hdes2, Hmade2, Hnext2, Hst2.
  split_and!.
  - rewrite Hdes3, Hdes2, Hdes1.
    rewrite (Hother2 Filter), (Hother1 Filter), (Hother1 Graphic) by done.
    simpl. by rewrite <- !app_assoc.
  - by rewrite Hmade3, Hmade2.
  - by rewrite Hnext3, Hnext2.
  - by rewrite Hst3, Hst2.
  - change (lookup Transition (clean (in_Filter input) Filter w2)
            = lookup Transition w).
    by rewrite (Hother3 Transition), (Hother2 Transition),
      (Hother1 Transition).
Qed.

(** *** [create] *)

Lemma config_at_ext w1 w2 c :
  cstore w1 = cstore w2 → config_at w1 c = config_at w2 c.
Proof. unfold config_at. by intros ->. Qed.

(** One iteration of [create], view by view. *)
Lemma create_one_spec key identifier c w :
  let w' := create_one key identifier c w in
  let found := JsMap.get identifier (byIdentifier (lookup key w)) in
  let pixi := default (next_obj w) found in
  byIdentifier (lookup key w')
  = JsMap.set identifier pixi (byIdentifier (lookup key w))
  ∧ byTag (lookup key w')
    = match truthy (cfg_tag (config_at w c)) with
      | Some tag => setOrAppend tag pixi (byTag (lookup key w))
      | None => byTag (lookup key w)
      end
  ∧ configBy (lookup key w') = JsMap.set pixi c (configBy (lookup key w))
  ∧ identifierBy (lookup key w')
    = JsMap.set pixi identifier (identifierBy (lookup key w))
  ∧ (∀ key', key' ≠ key → lookup key' w' = lookup key' w)
  ∧ made w'
    = (made w ++ (if found is Some _ then []
                  else [(key, identifier, next_obj w)]))%list
  ∧ next_obj w' = (if found is Some _ then next_obj w else S (next_obj w))
  ∧ cstore w' = cstore w
  ∧ destroyed w' = destroyed w.
Proof.
  unfold create_one, get_or_make. simpl.
  destruct (JsMap.get identifier (byIdentifier (lookup key w))) as [o|];
    destruct (truthy (cfg_parent (config_at w c)));
    destruct (truthy (cfg_tag (config_at w c))); simpl;
    rewrite ?lookup_set_lookup_eq, ?lookup_set_childrenByIdentifier,
      ?lookup_set_filtersOf, ?lookup_set_factory; simpl;
    (split_and!; try done; try (by rewrite app_nil_r);
     intros key' Hne;
     rewrite lookup_set_lookup_ne, ?lookup_set_childrenByIdentifier,
       ?lookup_set_filtersOf, ?lookup_set_factory by done; done).
Qed.

Lemma create_cons key identifier c cs w :
  create (Some ((identifier, c) :: cs)) key w
  = create (Some cs) key (create_one key identifier c w).
Proof. done. Qed.

(** What [create] leaves alone. *)
Lemma create_frame configs key : ∀ w,
  let w' := create configs key w in
  (∀ key', key' ≠ key → lookup key' w' = lookup key' w)
  ∧ cstore w' = cstore w
  ∧ destroyed w' = destroyed w.
Proof.
  destruct configs as [cs|]; [|done].
  induction cs as [|[identifier c] cs IH]; intros w; [done|].
  rewrite create_cons.
  destruct (create_one_spec key identifier c w)
    as (_ & _ & _ & _ & Hother & _ & _ & Hst & Hdes).
  destruct (IH (create_one key identifier c w)) as (Hother' & Hst' & Hdes').
  cbv zeta. split_and!.
  - intros key' Hne. by rewrite Hother', Hother.
  - by rewrite Hst'.
  - by rewrite Hdes'.
Qed.

(** A registered identifier keeps its object through [create]. *)
Lemma create_keeps_binding configs key identifier o : ∀ w,
  JsMap.get identifier (byIdentifier (lookup key w)) = Some o →
  JsMap.get identifier (byIdentifier (lookup key (create configs key w)))
  = Some o.
Proof.
  destruct configs as [cs|]; [|done].
  induction cs as [|[identifier' c] cs IH]; intros w Hget; [done|].
  rewrite create_cons. apply IH.
  destruct (create_one_spec key identifier' c w) as (-> & _).
  rewrite JsMap_get_set. case_decide as Heq; [|done].
  subst identifier'. by rewrite Hget.
Qed.

(** Every identifier of the section is registered after [create]. *)
Lemma create_binds cs key identifier : ∀ w,
  identifier ∈ cs.*1 →
  ∃ o, JsMap.get identifier
         (byIdentifier (lookup key (create (Some cs) key w))) = Some o.
Proof.
  induction cs as [|[identifier' c] cs IH]; intros w Hin; simpl in Hin.
  - by apply elem_of_nil in Hin.
  - rewrite create_cons.
    destruct (decide (identifier = identifier')) as [->|Hne].
    + eexists. apply create_keeps_binding.
      destruct (create_one_spec key identifier' c w) as (-> & _).
      apply JsMap_get_set_eq.
    + apply IH. apply elem_of_cons in Hin as [?|?]; done.
Qed.

(** The factory calls of [create]: each is for this kind and for an
    identifier of the section that was not registered. *)
Lemma create_made configs key : ∀ w,
  ∃ new,
    made (create configs key w) = (made w ++ new)%list
    ∧ ∀ key' identifier o,
        (key', identifier, o) ∈ new →
        key' = key
        ∧ JsMap.get identifier (byIdentifier (lookup key w)) = None
        ∧ ∃ cs, configs = Some cs ∧ identifier ∈ cs.*1.
Proof.
  destruct configs as [cs|];
    [|intros w; exists []; split;
      [by rewrite app_nil_r | by intros ??? ?%elem_of_nil]].
  induction cs as [|[identifier c] cs IH]; intros w.
  - exists []. split; [by rewrite app_nil_r | by intros ??? ?%elem_of_nil].
  - rewrite create_cons.
    destruct (create_one_spec key identifier c w)
      as (Hid & _ & _ & _ & _ & Hmade & _).
    destruct (IH (create_one key identifier c w)) as (new & Hnew & Hfresh).
    rewrite Hnew, Hmade, <- app_assoc. eexists. split; [done|].
    intros key' identifier' o [Hin|Hin]%elem_of_app.
    + destruct (JsMap.get identifier (byIdentifier (lookup key w))) eqn:Hget;
        [by apply elem_of_nil in Hin|].
      apply list_elem_of_singleton in Hin. simplify_eq.
      split_and!; [done | done |]. eexists. split; [done | left].
    + destruct (Hfresh _ _ _ Hin) as (-> & Hnone & cs' & [= <-] & Hcs).
      split_and!; [done | |].
      * rewrite Hid, JsMap_get_set in Hnone. by case_decide.
      * eexists. split; [done | by right].
Qed.

(** A binding found after [create] was there before, or is for an
    identifier of the section. *)
Lemma create_binding_origin cs key identifier o : ∀ w,
  JsMap.get identifier (byIdentifier (lookup key (create (Some cs) key w)))
  = Some o →
  JsMap.get identifier (byIdentifier (lookup key w)) = Some o
  ∨ identifier ∈ cs.*1.
Proof.
  induction cs as [|[identifier' c] cs IH]; intros w Hget; [by left|].
  rewrite create_cons in Hget. simpl.
  destruct (decide (identifier = identifier')) as [->|Hne];
    [right; left|].
  destruct (IH _ Hget) as [Hfound|Hin]; [|right; by right].
  destruct (create_one_spec key identifier' c w) as (Hid & _).
  rewrite Hid, JsMap_get_set_ne in Hfound by done. by left.
Qed.

(** When every identifier of the section is registered already, [create]
    calls no factory and leaves the identifier->object view as it is. *)
Lemma create_registered_noop cs key : ∀ w,
  (∀ identifier, identifier ∈ cs.*1 →
     is_Some (JsMap.get identifier (byIdentifier (lookup key w)))) →
  byIdentifier (lookup key (create (Some cs) key w))
  = byIdentifier (lookup key w)
  ∧ made (create (Some cs) key w) = made w
  ∧ next_obj (create (Some cs) key w) = next_obj w.
Proof.
  induction cs as [|[identifier c] cs IH]; intros w Hall; [done|].
  rewrite create_cons.
  destruct (Hall identifier) as [o Ho]; [left|].
  destruct (create_one_spec key identifier c w)
    as (Hid & _ & _ & _ & _ & Hmade & Hnext & _).
  rewrite Ho in Hid, Hmade, Hnext. simpl in Hid, Hmade, Hnext.
  rewrite (JsMap_set_same _ _ _ Ho) in Hid. rewrite app_nil_r in Hmade.
  destruct (IH (create_one key identifier c w)) as (Hid' & Hmade' & Hnext').
  { intros i Hi. rewrite Hid. apply Hall. by right. }
  split_and!; congruence.
Qed.

Lemma elem_of_stale_keys set entries identifier :
  identifier ∈ (stale set entries).*1
  ↔ (identifier ∉ set) ∧ identifier ∈ entries.*1.
Proof.
  unfold stale. rewrite !list_elem_of_fmap. split.
  - intros ([i o] & -> & [Hi Hin]%list_elem_of_filter).
    split; [done|]. by exists (i, o).
  - intros [Hi ([i o] & -> & Hin)]. exists (i, o). split; [done|].
    by apply list_elem_of_filter.
Qed.

Lemma elem_of_removed current l e :
  e ∈ removed current l → e ∈ byIdentifier l.
Proof.
  destruct current as [cur|]; simpl; [|by intros ?%elem_of_nil].
  unfold stale. by intros [_ ?]%list_elem_of_filter.
Qed.

(** *** Tags *)

Lemma get_setOrAppend (tag tag' : string) o (m : JsMap.t string (list obj)) :
  JsMap.get tag (setOrAppend tag' o m)
  = if decide (tag = tag')
    then Some (default [] (JsMap.get tag m) ++ [o])%list
    else JsMap.get tag m.
Proof.
  unfold setOrAppend.
  destruct (JsMap.get tag' m) as [l|] eqn:Hget; rewrite JsMap_get_set;
    case_decide; subst; by rewrite ?Hget.
Qed.

Lemma truthy_Some s t : truthy s = Some t ↔ s = Some t ∧ t ≠ EmptyString.
Proof.
  destruct s as [[|a s]|]; simpl; split; try done.
  - by intros [[= <-] ?].
  - by intros [= <-].
  - by intros [[= <-] _].
  - by intros [? _].
Qed.

(** The objects that [create] adds under a tag are those of the
    identifiers whose config declares the tag. *)
Lemma create_bucket cs key tag o : ∀ w,
  o ∈ bucket tag (lookup key (create (Some cs) key w))
  ↔ o ∈ bucket tag (lookup key w)
    ∨ ∃ identifier c,
        (identifier, c) ∈ cs
        ∧ declares_tag (config_at w c) tag
        ∧ JsMap.get identifier
            (byIdentifier (lookup key (create (Some cs) key w))) = Some o.
Proof.
  induction cs as [|[identifier c] cs IH]; intros w.
  - simpl. split; [by left|]. intros [?|(? & ? & ?%elem_of_nil & _)]; done.
  - rewrite create_cons, IH. clear IH.
    set (w1 := create_one key identifier c w).
    destruct (create_one_spec key identifier c w)
      as (Hid & Htag & _ & _ & _ & _ & _ & Hst & _). fold w1 in Hid, Htag, Hst.
    set (pixi := default (next_obj w)
                   (JsMap.get identifier (byIdentifier (lookup key w))))
      in Hid, Htag.
    assert (JsMap.get identifier
              (byIdentifier (lookup key (create (Some cs) key w1)))
            = Some pixi) as Hpixi.
    { apply create_keeps_binding. rewrite Hid. apply JsMap_get_set_eq. }
    assert (o ∈ bucket tag (lookup key w1)
            ↔ o ∈ bucket tag (lookup key w)
              ∨ (declares_tag (config_at w c) tag ∧ o = pixi)) as Hstep.
    { unfold bucket, declares_tag. rewrite Htag.
      destruct (truthy (cfg_tag (config_at w c))) as [t|] eqn:Htruthy.
      - apply truthy_Some in Htruthy as [Ht Hne].
        rewrite get_setOrAppend. case_decide as Heq; simpl.
        + subst t. rewrite elem_of_app, list_elem_of_singleton. tauto.
        + split; [by left|]. intros [?|[[? _] _]]; [done|]. congruence.
      - split; [by left|]. intros [?|[Hdecl _]]; [done|].
        apply truthy_Some in Hdecl. congruence. }
    rewrite Hstep. split.
    + intros [[Hold|[Hdecl ->]]|(i & c' & Hin & Hdecl & Hget)].
      * by left.
      * right. exists identifier, c. split_and!; [left | done | done].
      * right. exists i, c'. split_and!; [by right | | done].
        by rewrite <- (config_at_ext w1 w c' Hst).
    + intros [Hold|(i & c' & [[= -> ->]|Hin]%elem_of_cons & Hdecl & Hget)].
      * by left; left.
      * left. right. split; [done|]. congruence.
      * right. exists i, c'. split_and!; [done | | done].
        by rewrite (config_at_ext w1 w c' Hst).
Qed.

(** *** [prepare], step by step *)

Lemma prepare_unfold E ok input w :
  prepare E ok input w
  = (load ok input &> (λ wl, finish E input (registered input wl)))
      (cleanup input w).
Proof. done. Qed.

Lemma keeps_pure f :
  (∀ w, visuals (f w) = visuals w) → keeps_visuals (pure f).
Proof. intros Hf w. apply Hf. Qed.

Lemma keeps_andThen c1 c2 :
  keeps_visuals c1 → keeps_visuals c2 → keeps_visuals (c1 &> c2).
Proof.
  intros H1 H2 w. unfold andThen. specialize (H1 w).
  destruct (c1 w) as [[|e] w1]; simpl in *; [|done].
  by rewrite H2.
Qed.

Lemma keeps_formRelationships : keeps_visuals formRelationships.
Proof.
  intros w. unfold formRelationships.
  generalize (childrenByIdentifier w). intros entries. revert w.
  induction entries as [|[identifier children] entries IH]; intros w; simpl;
    [done|].
  destruct (resolve_parent identifier w) as [parent|]; [|done].
  by rewrite IH.
Qed.

Lemma keeps_setupMasks sprites : keeps_visuals (setupMasks sprites).
Proof.
  destruct sprites as [entries|]; [|done]. simpl.
  induction entries as [|[spriteId c] entries IH]; intros w; simpl; [done|].
  destruct (truthy (cfg_mask (config_at w c))); [|apply IH].
  destruct (JsMap.get spriteId (byIdentifier (lookup_Sprite w))); [|done].
  by rewrite IH.
Qed.

Lemma keeps_initialize key set :
  (∀ o c, keeps_visuals (set o c)) → keeps_visuals (initialize key set).
Proof.
  intros Hset w. unfold initialize.
  generalize (configBy (lookup key w)). intros entries. revert w.
  induction entries as [|[item c] entries IH]; intros w; simpl; [done|].
  unfold andThen at 1, pure at 1.
  destruct (JsMap.has item (parentByChild (addChild item w))).
  - by rewrite IH.
  - unfold andThen. specialize (Hset item c (addChild item w)).
    destruct (set item c (addChild item w)) as [[|e] w1]; simpl in *;
      [|done].
    by rewrite IH.
Qed.

Lemma keeps_finish E input : well_behaved E → keeps_visuals (finish E input).
Proof.
  intros [Hs Hg Hf Ht Hp]. unfold finish.
  repeat apply keeps_andThen;
    auto using keeps_formRelationships, keeps_setupMasks, keeps_initialize.
  by apply keeps_pure.
Qed.

(** The load leaves everything but the texture cache as it is. *)
Lemma load_frame ok input w :
  let w' := (load ok input w).2 in
  (∀ key, lookup key w' = lookup key w)
  ∧ made w' = made w
  ∧ next_obj w' = next_obj w
  ∧ cstore w' = cstore w
  ∧ destroyed w' = destroyed w.
Proof.
  unfold load.
  destruct (spritesheets w) eqn:Hsheets, (texturesFromSheet w),
    (in_Sprite input), ok; simpl; split_and!; try done;
    by intros [].
Qed.

Lemma lookup_cleanup key input w :
  key ≠ Transition →
  lookup key (cleanup input w)
  = lookup key (clean_all input (set_alias (in_Alias input) w)).
Proof.
  intros Hne. unfold cleanup, clear_transitions_and_graph.
  by rewrite lookup_set_graph, lookup_set_lookup_ne.
Qed.

(** A completed [prepare]: the load succeeded on the cleaned state, and
    the registries of sprites and graphics and the factory log are those
    that [create] produced. *)
Lemma prepare_Done E ok input w w' :
  well_behaved E →
  prepare E ok input w = (Done, w') →
  ∃ wl,
    load ok input (cleanup input w) = (Done, wl)
    ∧ visuals w' = visuals (registered input wl).
Proof.
  intros HE. rewrite prepare_unfold. unfold andThen at 1.
  destruct (load ok input (cleanup input w)) as [[|e] wl] eqn:Hload; [|done].
  intros Hfinish. exists wl. split; [done|].
  pose proof (keeps_finish E input HE (registered input wl)) as Hkeep.
  by rewrite Hfinish in Hkeep.
Qed.

Lemma cleanup_frame input w :
  made (cleanup input w) = made w
  ∧ next_obj (cleanup input w) = next_obj w
  ∧ cstore (cleanup input w) = cstore w.
Proof.
  destruct (clean_all_rest input (set_alias (in_Alias input) w))
    as (_ & Hmade & Hnext & Hst & _).
  unfold cleanup, clear_transitions_and_graph. simpl in *. by split_and!.
Qed.

(** The registry of a visual kind after a completed [prepare] is what
    [create] made of the cleaned registry. *)
Lemma prepare_pass E ok input w w' key :
  well_behaved E → visual key →
  prepare E ok input w = (Done, w') →
  ∃ wm,
    lookup key w' = lookup key (create (in_section key input) key wm)
    ∧ lookup key wm
      = lookup key (clean_all input (set_alias (in_Alias input) w))
    ∧ cstore wm = cstore w.
Proof.
  intros HE Hkey Hdone.
  destruct (prepare_Done _ _ _ _ _ HE Hdone) as (wl & Hload & Hvis).
  destruct (load_frame ok input (cleanup input w))
    as (Hlk & _ & _ & Hst & _).
  rewrite Hload in Hlk, Hst. cbn [snd] in Hlk, Hst.
  destruct (cleanup_frame input w) as (_ & _ & Hst0).
  unfold visuals, registered in Hvis.
  set (w0 := set_childrenByIdentifier JsMap.empty wl) in *.
  injection Hvis as HS HG _.
  destruct (create_frame (in_Graphic input) Graphic w0) as (HoG & HstG & _).
  destruct (create_frame (in_Sprite input) Sprite
              (create (in_Graphic input) Graphic w0)) as (HoS & _ & _).
  destruct Hkey as [-> | ->].
  - exists (create (in_Graphic input) Graphic w0). split_and!.
    + done.
    + rewrite (HoG Sprite) by done. unfold w0.
      rewrite lookup_set_childrenByIdentifier, Hlk.
      by apply lookup_cleanup.
    + rewrite HstG. unfold w0. simpl. congruence.
  - exists w0. split_and!.
    + change (lookup Graphic w' = lookup Graphic
                                   (create (in_Graphic input) Graphic w0)).
      rewrite <- (HoS Graphic) by done. done.
    + unfold w0. rewrite lookup_set_childrenByIdentifier, Hlk.
      by apply lookup_cleanup.
    + unfold w0. simpl. congruence.
Qed.

(** The factory calls of a completed [prepare]: each is for a sprite or a
    graphic of the snapshot whose identifier the cleaned registry did not
    hold. *)
Lemma prepare_made E ok input w w' :
  well_behaved E →
  prepare E ok input w = (Done, w') →
  ∃ new,
    made w' = (made w ++ new)%list
    ∧ ∀ key identifier o,
        (key, identifier, o) ∈ new →
        visual key
        ∧ JsMap.get identifier
            (byIdentifier
               (lookup key
                  (clean_all input (set_alias (in_Alias input) w))))
          = None
        ∧ ∃ cs, in_section key input = Some cs ∧ identifier ∈ cs.*1.
Proof.
  intros HE Hdone.
  destruct (prepare_Done _ _ _ _ _ HE Hdone) as (wl & Hload & Hvis).
  destruct (load_frame ok input (cleanup input w))
    as (Hlk & Hmade & _).
  rewrite Hload in Hlk, Hmade. cbn [snd] in Hlk, Hmade.
  destruct (cleanup_frame input w) as (Hmade0 & _).
  unfold visuals, registered in Hvis.
  set (w0 := set_childrenByIdentifier JsMap.empty wl) in *.
  injection Hvis as _ _ Hm.
  destruct (create_frame (in_Graphic input) Graphic w0) as (HoG & _).
  destruct (create_made (in_Graphic input) Graphic w0)
    as (newG & HnewG & HfreshG).
  destruct (create_made (in_Sprite input) Sprite
              (create (in_Graphic input) Graphic w0))
    as (newS & HnewS & HfreshS).
  exists (newG ++ newS)%list. split.
  - rewrite Hm, HnewS, HnewG. unfold w0. simpl.
    by rewrite Hmade, Hmade0, <- app_assoc.
  - intros key identifier o [Hin|Hin]%elem_of_app.
    + destruct (HfreshG _ _ _ Hin) as (-> & Hnone & Hsec).
      split_and!; [by right | | done].
      unfold w0 in Hnone.
      by rewrite lookup_set_childrenByIdentifier, Hlk, lookup_cleanup
        in Hnone.
    + destruct (HfreshS _ _ _ Hin) as (-> & Hnone & Hsec).
      split_and!; [by left | | done].
      rewrite (HoG Sprite) in Hnone by done. unfold w0 in Hnone.
      by rewrite lookup_set_childrenByIdentifier, Hlk, lookup_cleanup
        in Hnone.
Qed.

Lemma visual_cleaned key : visual key → cleaned key.
Proof. intros [->| ->]; [by left | by right; left]. Qed.

(** What the cleaned registry holds for an identifier, for a section that
    is present: the old binding if the section names the identifier,
    nothing otherwise. *)
Lemma cleaned_binding input key s w identifier :
  cleaned key → in_section key input = Some s →
  JsMap.get identifier
    (byIdentifier
       (lookup key (clean_all input (set_alias (in_Alias input) w))))
  = if bool_decide (identifier ∈ s.*1)
    then JsMap.get identifier (byIdentifier (lookup key w))
    else None.
Proof.
  intros Hkey Hsec.
  destruct (clean_all_spec input key (set_alias (in_Alias input) w) Hkey)
    as (Hid & _).
  rewrite Hid, Hsec, lookup_set_alias. simpl.
  destruct (decide (identifier ∈ s.*1)) as [Hin|Hnin].
  - rewrite (bool_decide_eq_true_2 _ Hin), bool_decide_eq_false_2; [done|].
    rewrite elem_of_stale_keys. tauto.
  - rewrite (bool_decide_eq_false_2 _ Hnin). case_bool_decide as Hx; [done|].
    destruct (JsMap.get identifier (byIdentifier (lookup key w))) as [o|]
      eqn:Hget; [|done].
    exfalso. apply Hx. apply elem_of_stale_keys. split; [done|].
    by eapply JsMap_get_Some_keys.
Qed.

(** After a completed [prepare] the registry of a visual kind whose section
    is present holds identifiers of the section only. *)
Lemma prepare_registered_only E ok input w w' key s identifier o :
  well_behaved E → visual key →
  prepare E ok input w = (Done, w') →
  in_section key input = Some s →
  JsMap.get identifier (byIdentifier (lookup key w')) = Some o →
  identifier ∈ s.*1.
Proof.
  intros HE Hkey Hdone Hsec Hget.
  destruct (prepare_pass _ _ _ _ _ key HE Hkey Hdone) as (wm & Hw' & Hwm & _).
  rewrite Hw', Hsec in Hget.
  apply create_binding_origin in Hget as [Hget|Hin]; [|done].
  rewrite Hwm, (cleaned_binding _ _ s) in Hget
    by auto using visual_cleaned.
  by case_bool_decide.
Qed.

(** ** The claims on the reconciler *)

Lemma lookup_clean_other current key key' w :
  key' ≠ key → lookup key' (clean current key w) = lookup key' w.
Proof.
  intros Hne. destruct (clean_spec current key w) as (_ & _ & _ & _ & H & _).
  by apply H.
Qed.

(** An [undefined] section leaves its kind's registry as it is through the
    three calls of [clean]. *)
Lemma clean_all_undefined_section input key w :
  cleaned key → in_section key input = None →
  lookup key (clean_all input w) = lookup key w.
Proof.
  intros Hkey Hnone. rewrite clean_all_unfold.
  destruct Hkey as [-> | [-> | ->]]; simpl in Hnone; rewrite Hnone.
  - by rewrite 2!lookup_clean_other by done.
  - rewrite lookup_clean_other by done. cbn [clean].
    by rewrite lookup_clean_other by done.
  - cbn [clean]. by rewrite 2!lookup_clean_other by done.
Qed.

Lemma visuals_lookup key w1 w2 :
  visual key → visuals w1 = visuals w2 → lookup key w1 = lookup key w2.
Proof. intros [-> | ->] [= HS HG _]; done. Qed.

Lemma lookup_create_other configs key key' w :
  key' ≠ key → lookup key' (create configs key w) = lookup key' w.
Proof.
  intros Hne. destruct (create_frame configs key w) as (H & _). by apply H.
Qed.

(** And so does the whole of [prepare], whether it completes or throws. *)
Lemma prepare_keeps_undefined_section E ok input w key :
  well_behaved E → visual key → in_section key input = None →
  lookup key (prepare E ok input w).2 = lookup key w.
Proof.
  intros HE Hkey Hnone.
  assert (lookup key (load ok input (cleanup input w)).2 = lookup key w)
    as Hloaded.
  { destruct (load_frame ok input (cleanup input w)) as (-> & _).
    rewrite lookup_cleanup by (by destruct Hkey as [-> | ->]).
    rewrite clean_all_undefined_section by auto using visual_cleaned.
    apply lookup_set_alias. }
  rewrite prepare_unfold. unfold andThen at 1.
  destruct (load ok input (cleanup input w)) as [[|e] wl]; [|done].
  cbn [snd] in Hloaded.
  rewrite (visuals_lookup key _ (registered input wl) Hkey)
    by apply (keeps_finish E input HE).
  rewrite <- Hloaded. unfold registered.
  destruct Hkey as [-> | ->]; simpl in Hnone; rewrite Hnone; cbn [create].
  - rewrite lookup_create_other by done.
    apply lookup_set_childrenByIdentifier.
  - rewrite lookup_create_other by done.
    apply lookup_set_childrenByIdentifier.
Qed.

(** C9. When the section of a cleaned kind is [undefined], the call of
    [clean] for that kind returns at once; after the three calls of
    [prepare]'s cleanup the kind's registry is the same in all four views,
    tag view included, and an object registered under the kind (and under
    no other kind) has received no [destroy]. *)
Theorem clean_skipped_for_undefined_section (input : Input)
    (key : LookupKey) (w : World) :
  cleaned key →
  in_section key input = None →
  clean (in_section key input) key w = w
  ∧ lookup key (clean_all input w) = lookup key w
  ∧ ∀ identifier o,
      (identifier, o) ∈ byIdentifier (lookup key w) →
      (∀ key' identifier',
         key' ≠ key → (identifier', o) ∉ byIdentifier (lookup key' w)) →
      o ∉ destroyed w →
      o ∉ destroyed (clean_all input w).
Proof.
  intros Hkey Hnone. split_and!.
  - by rewrite Hnone.
  - by apply clean_all_undefined_section.
  - intros identifier o Hreg Honly Hlive.
    destruct (clean_all_rest input w) as (-> & _).
    assert (∀ key', cleaned key' →
              o ∉ (removed (in_section key' input) (lookup key' w)).*2)
      as Hnot.
    { intros key' Hkey' ([i o'] & -> & Hin)%list_elem_of_fmap. simpl in *.
      destruct (decide (key' = key)) as [->|Hne].
      - rewrite Hnone in Hin. by apply elem_of_nil in Hin.
      - by apply elem_of_removed, Honly in Hin. }
    rewrite !elem_of_app. intros [?|[Hin|[Hin|Hin]]]; [done| | |].
    + by apply (Hnot Sprite); [left|].
    + by apply (Hnot Graphic); [right; left|].
    + by apply (Hnot Filter); [right; right|].
Qed.

Lemma clean_skipped_witness :
  lookup Sprite (clean_all snapshot_no_sprites after_ab)
  = lookup Sprite after_ab.
Proof.
  apply (clean_skipped_for_undefined_section snapshot_no_sprites Sprite
           after_ab); [by left | reflexivity].
Defined.

Lemma idle_well_behaved : well_behaved idle.
Proof. by split. Qed.

(** C7. Let two calls of [prepare] complete one after the other, and let a
    visual kind have a section in both snapshots.  Every identifier of
    both sections is registered to the same object after either call, and
    the second call invokes no factory for it.  When both sections name
    the same identifiers, the identifier->object view after the second call
    is the one after the first, and the second call invokes no factory of
    that kind at all. *)
Theorem prepare_recycles (E : Collaborators) (ok1 ok2 : bool)
    (input1 input2 : Input) (w0 w1 w2 : World) (key : LookupKey)
    (s1 s2 : list (string * cref)) :
  well_behaved E → visual key →
  prepare E ok1 input1 w0 = (Done, w1) →
  prepare E ok2 input2 w1 = (Done, w2) →
  in_section key input1 = Some s1 →
  in_section key input2 = Some s2 →
  ∃ new,
    made w2 = (made w1 ++ new)%list
    ∧ (∀ identifier,
         identifier ∈ s1.*1 → identifier ∈ s2.*1 →
         ∃ o,
           JsMap.get identifier (byIdentifier (lookup key w1)) = Some o
           ∧ JsMap.get identifier (byIdentifier (lookup key w2)) = Some o
           ∧ ∀ o', (key, identifier, o') ∉ new)
    ∧ (s2.*1 = s1.*1 →
       (∀ identifier,
          JsMap.get identifier (byIdentifier (lookup key w2))
          = JsMap.get identifier (byIdentifier (lookup key w1)))
       ∧ ∀ identifier o', (key, identifier, o') ∉ new).
Proof.
  intros HE Hkey H1 H2 Hs1 Hs2.
  destruct (prepare_made _ _ _ _ _ HE H2) as (new & Hnew & Hfresh).
  exists new. split; [done|].
  assert (∀ identifier,
            identifier ∈ s1.*1 → identifier ∈ s2.*1 →
            ∃ o,
              JsMap.get identifier (byIdentifier (lookup key w1)) = Some o
              ∧ JsMap.get identifier (byIdentifier (lookup key w2)) = Some o
              ∧ ∀ o', (key, identifier, o') ∉ new) as Hrecycle.
  { intros identifier Hi1 Hi2.
    destruct (prepare_pass _ _ _ _ _ key HE Hkey H1) as (wm1 & Hw1 & _).
    rewrite Hs1 in Hw1.
    destruct (create_binds s1 key identifier wm1 Hi1) as [o Ho].
    rewrite <- Hw1 in Ho.
    assert (JsMap.get identifier
              (byIdentifier
                 (lookup key
                    (clean_all input2 (set_alias (in_Alias input2) w1))))
            = Some o) as Hkept.
    { rewrite (cleaned_binding _ _ s2) by auto using visual_cleaned.
      by rewrite bool_decide_eq_true_2. }
    destruct (prepare_pass _ _ _ _ _ key HE Hkey H2) as (wm2 & Hw2 & Hwm2 & _).
    exists o. split_and!; [done | |].
    - rewrite Hw2. apply create_keeps_binding. by rewrite Hwm2.
    - intros o' Hin. destruct (Hfresh _ _ _ Hin) as (_ & Hnone & _).
      congruence. }
  split; [done|]. intros Hsame. split.
  - intros identifier. destruct (decide (identifier ∈ s1.*1)) as [Hin|Hnin].
    + destruct (Hrecycle identifier) as (o & -> & -> & _); [done| |done].
      by rewrite Hsame.
    + destruct (JsMap.get identifier (byIdentifier (lookup key w2)))
        as [o|] eqn:Hget2.
      { exfalso. apply Hnin. rewrite <- Hsame.
        by eapply (prepare_registered_only E ok2 input2 w1 w2 key). }
      destruct (JsMap.get identifier (byIdentifier (lookup key w1)))
        as [o|] eqn:Hget1; [|done].
      exfalso. apply Hnin.
      by eapply (prepare_registered_only E ok1 input1 w0 w1 key).
  - intros identifier o' Hin.
    destruct (Hfresh _ _ _ Hin) as (_ & _ & cs & Hcs & Hid).
    rewrite Hs2 in Hcs. injection Hcs as <-.
    destruct (Hrecycle identifier) as (_ & _ & _ & Hno); [|done|].
    + by rewrite <- Hsame.
    + by apply (Hno o').
Qed.

Lemma prepare_recycles_witness :
  ∃ o,
    JsMap.get "a"%string (byIdentifier (lookup Sprite after_ab)) = Some o
    ∧ JsMap.get "a"%string
        (byIdentifier
           (lookup Sprite (prepare idle true snapshot_a after_ab).2))
      = Some o.
Proof.
  destruct (prepare_recycles idle true true snapshot_ab snapshot_a
              demo_scope after_ab (prepare idle true snapshot_a after_ab).2
              Sprite [("a"%string, 0%nat); ("b"%string, 1%nat)]
              [("a"%string, 2%nat)] idle_well_behaved)
    as (new & _ & Hboth & _);
    [by left | by vm_compute | by vm_compute | done | done |].
  destruct (Hboth "a"%string) as (o & H1 & H2 & _);
    [by left | by left |].
  by exists o.
Defined.

Lemma clean_entries_sheets key set entries : ∀ w,
  spritesheets (clean_entries key set entries w) = spritesheets w
  ∧ texturesFromSheet (clean_entries key set entries w) = texturesFromSheet w.
Proof.
  induction entries as [|[identifier item] entries IH]; intros w; simpl;
    [done|].
  case_bool_decide; [apply IH|].
  by destruct (IH (destroy item
                     (set_lookup key
                        (mkLookup
                           (JsMap.delete identifier
                              (byIdentifier (lookup key w)))
                           (byTag (lookup key w))
                           (JsMap.delete item (configBy (lookup key w)))
                           (identifierBy (lookup key w))) w))) as [-> ->].
Qed.

Lemma clean_sheets current key w :
  spritesheets (clean current key w) = spritesheets w
  ∧ texturesFromSheet (clean current key w) = texturesFromSheet w.
Proof.
  destruct current as [cur|]; [|done]. simpl.
  apply clean_entries_sheets.
Qed.

Lemma cleanup_sheets input w :
  spritesheets (cleanup input w) = spritesheets w
  ∧ texturesFromSheet (cleanup input w) = texturesFromSheet w.
Proof.
  unfold cleanup, clear_transitions_and_graph. simpl.
  rewrite clean_all_unfold.
  destruct (clean_sheets (in_Filter input) Filter
              (clean (in_Graphic input) Graphic
                 (clean (in_Sprite input) Sprite
                    (set_alias (in_Alias input) w)))) as [-> ->].
  destruct (clean_sheets (in_Graphic input) Graphic
              (clean (in_Sprite input) Sprite
                 (set_alias (in_Alias input) w))) as [-> ->].
  by destruct (clean_sheets (in_Sprite input) Sprite
                 (set_alias (in_Alias input) w)) as [-> ->].
Qed.

(** What [clean] does for an identifier that the new section lacks: the
    object leaves the identifier->object and object->config views, the tag
    view is emptied, and the object is destroyed; once, when the registry
    holds no object twice. *)
Lemma clean_removes_absent (cur : list (string * cref)) (key : LookupKey)
    (w : World) (identifier : string) (o : obj) :
  identifier ∉ cur.*1 →
  (identifier, o) ∈ byIdentifier (lookup key w) →
  let w' := clean (Some cur) key w in
  JsMap.get identifier (byIdentifier (lookup key w')) = None
  ∧ JsMap.get o (configBy (lookup key w')) = None
  ∧ byTag (lookup key w') = JsMap.empty
  ∧ (∃ calls, destroyed w' = (destroyed w ++ calls)%list
              ∧ o ∈ calls
              ∧ (NoDup (byIdentifier (lookup key w)).*2 → NoDup calls)).
Proof.
  intros Hnin Hreg.
  destruct (clean_spec (Some cur) key w)
    as (Hid & Hcfg & _ & Htag & _ & Hdes & _).
  assert ((identifier, o) ∈ removed (Some cur) (lookup key w)) as Hgone.
  { simpl. unfold stale. by apply list_elem_of_filter. }
  cbv zeta. split_and!.
  - rewrite Hid, bool_decide_eq_true_2; [done|].
    apply list_elem_of_fmap. by exists (identifier, o).
  - rewrite Hcfg, bool_decide_eq_true_2; [done|].
    apply list_elem_of_fmap. by exists (identifier, o).
  - done.
  - eexists. split; [exact Hdes|]. split.
    + apply list_elem_of_fmap. by exists (identifier, o).
    + simpl. unfold stale. intros Hnodup.
      eapply sublist_NoDup; [exact Hnodup|].
      apply fmap_sublist, sublist_filter.
Qed.

Lemma clean_identifierBy current key w :
  identifierBy (lookup key (clean current key w)) = identifierBy (lookup key w).
Proof. by destruct (clean_spec current key w) as (_ & _ & H & _). Qed.

(** C1 (the code departs from the claim). [clean] never touches the
    object->identifier view.  In the scenario [{a, b}] then [{a}], the
    object of ["b"] leaves the identifier->object and object->config views,
    the tag view is emptied and the object is destroyed once, and the
    object->identifier view still maps the destroyed object to ["b"]. *)
Theorem clean_keeps_identifier_of_destroyed :
  (∀ current key w,
     identifierBy (lookup key (clean current key w))
     = identifierBy (lookup key w))
  ∧ let w2 := (prepare idle true snapshot_a after_ab).2 in
    JsMap.get "b"%string (byIdentifier (lookup Sprite after_ab)) = Some 1%nat
    ∧ destroyed after_ab = []
    ∧ (prepare idle true snapshot_a after_ab).1 = Done
    ∧ JsMap.get "b"%string (byIdentifier (lookup Sprite w2)) = None
    ∧ JsMap.get 1%nat (configBy (lookup Sprite w2)) = None
    ∧ byTag (lookup Sprite w2) = []
    ∧ destroyed w2 = [1%nat]
    ∧ JsMap.get 1%nat (identifierBy (lookup Sprite w2)) = Some "b"%string.
Proof.
  split; [apply clean_identifierBy|]. by vm_compute.
Qed.

(** C2 (counterexample). The load fails in the second call of the scenario
    [{a, b}] then [{a}]: the failure reaches the caller, and by then the
    object of ["b"] has left the registry and has been destroyed. *)
Lemma cleanup_precedes_load_failure :
  let r := prepare idle false snapshot_a after_ab in
  r.1 = Throw LoadError
  ∧ JsMap.get "b"%string (byIdentifier (lookup Sprite after_ab)) = Some 1%nat
  ∧ JsMap.get "b"%string (byIdentifier (lookup Sprite r.2)) = None
  ∧ bucket "hero"%string (lookup Sprite after_ab) = [0%nat; 1%nat]
  ∧ bucket "hero"%string (lookup Sprite r.2) = []
  ∧ destroyed after_ab = []
  ∧ destroyed r.2 = [1%nat].
Proof. by vm_compute. Qed.

(** C2 (amended). When the load fails, [prepare] throws the load error and
    leaves the state that the cleanup produced: no factory has run, every
    identifier->object binding of a cleaned kind was there before the call,
    and the objects destroyed are those that the three calls of [clean]
    removed. *)
Theorem prepare_load_failure (E : Collaborators) (input : Input) (w : World) :
  in_Sprite input ≠ None →
  spritesheets w && texturesFromSheet w = false →
  prepare E false input w = (Throw LoadError, cleanup input w)
  ∧ made (cleanup input w) = made w
  ∧ next_obj (cleanup input w) = next_obj w
  ∧ (∀ key identifier o,
       cleaned key →
       JsMap.get identifier (byIdentifier (lookup key (cleanup input w)))
       = Some o →
       JsMap.get identifier (byIdentifier (lookup key w)) = Some o)
  ∧ destroyed (cleanup input w)
    = (destroyed w
       ++ (removed (in_Sprite input) (lookup Sprite w)).*2
       ++ (removed (in_Graphic input) (lookup Graphic w)).*2
       ++ (removed (in_Filter input) (lookup Filter w)).*2)%list.
Proof.
  intros Hsprites Hcache.
  destruct (cleanup_frame input w) as (Hmade & Hnext & _).
  split_and!; [|done|done| |].
  - rewrite prepare_unfold. unfold andThen at 1, load.
    destruct (cleanup_sheets input w) as [-> ->].
    rewrite Hcache. by destruct (in_Sprite input).
  - intros key identifier o Hkey.
    rewrite lookup_cleanup by (by destruct Hkey as [-> | [-> | ->]]).
    destruct (clean_all_spec input key (set_alias (in_Alias input) w) Hkey)
      as (Hid & _).
    rewrite Hid, lookup_set_alias. by case_bool_decide.
  - destruct (clean_all_rest input (set_alias (in_Alias input) w))
      as (Hdes & _).
    exact Hdes.
Qed.

Lemma prepare_load_failure_witness :
  prepare idle false snapshot_a after_ab
  = (Throw LoadError, cleanup snapshot_a after_ab).
Proof.
  apply (prepare_load_failure idle snapshot_a after_ab); [done | reflexivity].
Defined.

(** When [resolve_parent] throws, and when it yields [undefined]. *)
Lemma resolve_parent_throws identifier w :
  resolve_parent identifier w = None
  ↔ JsMap.get identifier (byIdentifier (lookup_Sprite w)) = None
    ∧ ∀ table, alias w = Some table →
        table !! identifier = None ∧ identifier ∉ Object_prototype.
Proof.
  unfold resolve_parent, member.
  destruct (JsMap.get identifier (byIdentifier (lookup_Sprite w))) as [p|];
    [by split; [|intros [? _]]|].
  destruct (alias w) as [table|]; [|by split].
  destruct (table !! identifier) as [path|] eqn:Hpath.
  - split; [done|]. intros [_ H].
    destruct (H table eq_refl) as [? _]. congruence.
  - case_bool_decide as Hin.
    + split; [done|]. intros [_ H]. by destruct (H table eq_refl) as [_ ?].
    + split; [|done]. intros _. split; [done|]. by intros ? [= <-].
Qed.

Lemma resolve_parent_undefined identifier w :
  resolve_parent identifier w = Some None
  ↔ JsMap.get identifier (byIdentifier (lookup_Sprite w)) = None
    ∧ ∃ table,
        alias w = Some table
        ∧ ((∃ assetPath,
              table !! identifier = Some assetPath
              ∧ JsMap.get assetPath (byIdentifier (lookup_Sprite w)) = None)
           ∨ (table !! identifier = None ∧ identifier ∈ Object_prototype)).
Proof.
  unfold resolve_parent, member.
  destruct (JsMap.get identifier (byIdentifier (lookup_Sprite w))) as [p|];
    [by split; [|intros [? _]]|].
  destruct (alias w) as [table|]; [|by split; [|intros [_ (? & ? & _)]]].
  destruct (table !! identifier) as [path|] eqn:Hpath.
  - split.
    + intros [= Hnone]. split; [done|]. exists table. split; [done|].
      left. by exists path.
    + intros [_ (t & [= <-] & [(p & Hp & Hnone)|[Hp _]])]; congruence.
  - case_bool_decide as Hin.
    + split; [|done]. intros _. split; [done|]. exists table.
      split; [done|]. by right.
    + split; [done|].
      intros [_ (t & [= <-] & [(p & Hp & _)|[_ Hin']])]; [congruence|done].
Qed.

(** A parent identifier that is a property name of [Object.prototype]
    and has no entry in the alias table does not throw: the parent is
    [undefined]. *)
Lemma formRelationships_inherited_key :
  let r := prepare idle true snapshot_inherited
             (set_cstore inherited_store (createScope false)) in
  r.1 = Done
  ∧ alias r.2 = Some ∅
  ∧ JsMap.get "child"%string (byIdentifier (lookup Sprite r.2)) = Some 0%nat
  ∧ JsMap.get 0%nat (parentByChild r.2) = Some None.
Proof. by vm_compute. Qed.

(** C3 (the code departs from the claim). The only sprite of the snapshot
    declares the parent ["ghost"]; no sprite has that identifier, and the
    alias table sends it to ["nowhere.png"], which no sprite has either.
    [prepare] completes, and the relationship graph records [undefined] as
    the parent of the child. *)
Theorem formRelationships_undefined_parent :
  let r := prepare idle true snapshot_orphan demo_scope in
  r.1 = Done
  ∧ JsMap.get "child"%string (byIdentifier (lookup Sprite r.2)) = Some 0%nat
  ∧ cfg_parent (config_at r.2 3%nat) = Some "ghost"%string
  ∧ JsMap.get "ghost"%string (byIdentifier (lookup Sprite r.2)) = None
  ∧ alias r.2 = Some (<["ghost"%string := "nowhere.png"%string]> ∅)
  ∧ JsMap.get "nowhere.png"%string (byIdentifier (lookup Sprite r.2)) = None
  ∧ JsMap.get 0%nat (parentByChild r.2) = Some None
  ∧ JsMap.get None (childrenByParent r.2) = Some [0%nat].
Proof. by vm_compute. Qed.

(** C8 (counterexample). The config of ["e"] has the tag [""]; after the
    reconciliation ["e"] is registered and the tag view has no bucket for
    [""]. *)
Lemma prepare_empty_tag_unregistered :
  let r := prepare idle true snapshot_empty_tag demo_scope in
  r.1 = Done
  ∧ cfg_tag (config_at r.2 4%nat) = Some EmptyString
  ∧ JsMap.get "e"%string (byIdentifier (lookup Sprite r.2)) = Some 0%nat
  ∧ JsMap.get EmptyString (byTag (lookup Sprite r.2)) = None
  ∧ bucket EmptyString (lookup Sprite r.2) = [].
Proof. by vm_compute. Qed.

(** C8 (amended). After a completed [prepare], for a visual kind whose
    section is present, the objects listed under a tag are exactly the
    objects registered for the identifiers whose config in the snapshot has
    that tag, the tag being a non-empty string. *)
Theorem prepare_tags (E : Collaborators) (ok : bool) (input : Input)
    (w w' : World) (key : LookupKey) (s : list (string * cref)) :
  well_behaved E → visual key →
  prepare E ok input w = (Done, w') →
  in_section key input = Some s →
  ∀ tag o,
    o ∈ bucket tag (lookup key w')
    ↔ ∃ identifier c,
        (identifier, c) ∈ s
        ∧ declares_tag (config_at w c) tag
        ∧ JsMap.get identifier (byIdentifier (lookup key w')) = Some o.
Proof.
  intros HE Hkey Hdone Hsec tag o.
  destruct (prepare_pass _ _ _ _ _ key HE Hkey Hdone)
    as (wm & Hw' & Hwm & Hst).
  rewrite Hw', Hsec, create_bucket.
  destruct (clean_all_spec input key (set_alias (in_Alias input) w)
              (visual_cleaned _ Hkey)) as (_ & _ & _ & Htag).
  rewrite Hsec in Htag.
  assert (bucket tag (lookup key wm) = []) as ->.
  { unfold bucket. by rewrite Hwm, Htag. }
  split.
  - intros [?%elem_of_nil|(i & c & Hin & Hdecl & Hget)]; [done|].
    exists i, c. by rewrite <- (config_at_ext wm w c Hst).
  - intros (i & c & Hin & Hdecl & Hget). right.
    exists i, c. by rewrite (config_at_ext wm w c Hst).
Qed.

Lemma prepare_tags_witness :
  1%nat ∈ bucket "hero"%string (lookup Sprite after_ab)
  ↔ ∃ identifier c,
      (identifier, c) ∈ [("a"%string, 0%nat); ("b"%string, 1%nat)]
      ∧ declares_tag (config_at demo_scope c) "hero"%string
      ∧ JsMap.get identifier (byIdentifier (lookup Sprite after_ab))
        = Some 1%nat.
Proof.
  apply (prepare_tags idle true snapshot_ab demo_scope after_ab Sprite
           [("a"%string, 0%nat); ("b"%string, 1%nat)] idle_well_behaved);
    [by left | by vm_compute | done].
Defined.

(** * Further properties *)

(** ** The hit tester *)

(** Where the comparison of the candidates puts its result: no candidate
    above it has a higher z-index, every candidate below it has a lower
    one. *)
Lemma best_from_split path r :
  best_from None path = Some r →
  ∃ above below,
    path = (above ++ r :: below)%list
    ∧ Forall (λ c, (item_zIndex c <= item_zIndex r)%Q) above
    ∧ Forall (λ c, (item_zIndex c < item_zIndex r)%Q) below.
Proof.
  revert r. induction path as [|c path IH]; intros r; simpl; [done|].
  destruct (best_from None path) as [t|] eqn:Hbest; simpl.
  - destruct (IH t eq_refl) as (above & below & -> & Habove & Hbelow).
    destruct (Qgt_bool (item_zIndex c) (item_zIndex t)) eqn:Hcmp;
      intros [= <-].
    + apply Qgt_bool_true in Hcmp. exists [], (above ++ t :: below)%list.
      split_and!; [done | constructor |].
      apply Forall_app. split; [|constructor; [done|]].
      * eapply Forall_impl; [exact Habove|]. simpl. intros c' Hc'.
        by eapply Qle_lt_trans.
      * eapply Forall_impl; [exact Hbelow|]. simpl. intros c' Hc'.
        by eapply Qlt_trans.
    + apply Qgt_bool_false in Hcmp. exists (c :: above), below.
      split_and!; [done | by constructor | done].
  - intros [= <-]. apply best_from_None_inv in Hbest as ->.
    exists [], []. split_and!; [done | constructor | constructor].
Qed.

(** X1. A query posts [null] and changes nothing exactly when no child of
    the root is hit. *)
Theorem getHit_null_iff_miss (root : item) (x y : float) (w : World) :
  getHit root x y w = (Done, w, Some MNull)
  ↔ Forall (λ ch, ¬ hits x y ch) (item_children root).
Proof.
  destruct (findTopmost_visits root x y) as (path & Hv & Hfind).
  unfold getHit. rewrite Hfind. split.
  - destruct (best_from None path) as [r|] eqn:Hbest.
    + destruct (item_kind r); unfold post_config;
        repeat case_match; intros ?; simplify_eq.
    + intros _. apply best_from_None_inv in Hbest as ->.
      by inversion Hv.
  - intros Hall. destruct Hv as [c _|c before child after path Hsplit Hchild].
    + done.
    + exfalso. rewrite Hsplit in Hall. apply Forall_app in Hall as [_ Hall].
      apply Forall_cons in Hall as [Hmiss _]. done.
Qed.

(** X2. In a container whose hit child has no children of its own, the
    traversal returns the last inserted child that is hit, whatever the
    z-index of the children inserted before it. *)
Theorem findTopmost_last_inserted_hit (root : item) (x y : float)
    (before : list item) (child : item) (after : list item) :
  item_children root = (before ++ child :: after)%list →
  hits x y child →
  Forall (λ ch, ¬ hits x y ch) after →
  item_children child = [] →
  findTopmostObjectAtPosition root x y = Some child.
Proof.
  intros Hsplit Hchild Hall Hleaf.
  destruct (findTopmost_visits root x y) as (path & Hv & ->).
  assert (visits x y root [child]) as Hone.
  { eapply visits_hit; eauto. constructor. rewrite Hleaf. constructor. }
  by rewrite (visits_functional _ _ _ _ Hone _ Hv).
Qed.

Lemma findTopmost_last_inserted_hit_witness :
  hits 7 7 sprite_b
  ∧ (item_zIndex sprite_a < item_zIndex sprite_b)%Q
  ∧ findTopmostObjectAtPosition (demo_root [sprite_b; sprite_a]) 7 7
    = Some sprite_a.
Proof.
  split_and!; [by vm_compute | by vm_compute |].
  apply (findTopmost_last_inserted_hit (demo_root [sprite_b; sprite_a]) 7 7
           [sprite_b] sprite_a []);
    [done | by vm_compute | constructor | done].
Defined.

(** X3. The result of the traversal splits the candidates of the query:
    the candidates of the levels above it have a z-index not higher than
    its own, and those of the levels below it a strictly lower one, so that
    of two candidates of equal z-index the deeper one is returned. *)
Theorem findTopmost_deepest_of_highest (root : item) (x y : float) :
  ∃ path,
    visits x y root path
    ∧ match findTopmostObjectAtPosition root x y with
      | None => path = []
      | Some r =>
          ∃ above below,
            path = (above ++ r :: below)%list
            ∧ Forall (λ c, (item_zIndex c <= item_zIndex r)%Q) above
            ∧ Forall (λ c, (item_zIndex c < item_zIndex r)%Q) below
      end.
Proof.
  destruct (findTopmost_visits root x y) as (path & Hv & Hfind).
  exists path. split; [done|]. rewrite Hfind.
  destruct (best_from None path) as [r|] eqn:Hbest.
  - by apply best_from_split.
  - by apply best_from_None_inv.
Qed.

(** X4. A query never changes a registry, and in the config store it
    changes nothing but the identifier of a config; asked again in the
    state it left, it gives the same answer and changes nothing more. *)
Theorem getHit_idempotent (root : item) (x y : float) (w : World) :
  let '(outcome, w', message) := getHit root x y w in
  (∀ key, lookup key w' = lookup key w)
  ∧ (∀ c, set_cfg_identifier None (config_at w' c)
          = set_cfg_identifier None (config_at w c))
  ∧ getHit root x y w' = (outcome, w', message).
Proof.
  unfold getHit.
  destruct (findTopmostObjectAtPosition root x y) as [r|]; [|done].
  assert (∀ key,
            let '(outcome, w', message) := post_config key r w in
            (∀ key', lookup key' w' = lookup key' w)
            ∧ (∀ c, set_cfg_identifier None (config_at w' c)
                    = set_cfg_identifier None (config_at w c))
            ∧ post_config key r w' = (outcome, w', message)) as Hpost.
  { intros key. unfold post_config.
    destruct (JsMap.get (item_oid r) (configBy (lookup key w))) as [c|]
      eqn:Hc; [|simpl; by rewrite Hc].
    split_and!.
    - intros key'. apply lookup_set_cstore.
    - intros c'. unfold config_at. simpl.
      destruct (decide (c' = c)) as [->|Hne].
      + by rewrite lookup_insert_eq.
      + by rewrite lookup_insert_ne.
    - rewrite lookup_set_cstore, Hc. unfold config_at. simpl.
      by rewrite lookup_insert_eq, insert_insert_eq. }
  destruct (item_kind r); [apply Hpost | apply Hpost | done].
Qed.

(** ** [clean] *)

Lemma JsMap_delete_filter {K V} `{EqDecision K} (k : K) (m : list (K * V)) :
  JsMap.delete k m = filter (λ e, e.1 ≠ k) m.
Proof.
  induction m as [|[k' v'] m IH]; [done|].
  rewrite filter_cons. cbn [JsMap.delete fst]. rewrite IH.
  destruct (decide (k = k')) as [->|Hne].
  - by rewrite decide_False by auto.
  - by rewrite decide_True by auto.
Qed.

Lemma filter_ext_in {A} (P Q : A → Prop) `{!∀ x, Decision (P x)}
    `{!∀ x, Decision (Q x)} (l : list A) :
  (∀ x, x ∈ l → P x ↔ Q x) → filter P l = filter Q l.
Proof.
  induction l as [|a l IH]; intros Hext; [done|].
  rewrite !filter_cons.
  rewrite IH by (intros x Hx; apply Hext; by right).
  apply decide_ext. apply Hext. left.
Qed.

Lemma filter_all_in {A} (P : A → Prop) `{!∀ x, Decision (P x)}
    (l : list A) :
  (∀ x, x ∈ l → P x) → filter P l = l.
Proof.
  induction l as [|a l IH]; intros Hall; [done|].
  rewrite filter_cons_True by (apply Hall; left).
  rewrite IH; [done|]. intros x Hx. apply Hall. by right.
Qed.

(** The two views that the loop of [clean] edits, as lists: the loop drops
    the stale entries and keeps the others in their order. *)
Lemma clean_entries_views key set entries : ∀ w,
  let w' := clean_entries key set entries w in
  byIdentifier (lookup key w')
  = filter (λ e, e.1 ∉ (stale set entries).*1)
      (byIdentifier (lookup key w) : list (string * obj))
  ∧ configBy (lookup key w')
    = filter (λ e, e.1 ∉ (stale set entries).*2)
        (configBy (lookup key w) : list (obj * cref)).
Proof.
  induction entries as [|[identifier item] entries IH]; intros w; simpl.
  - split; symmetry; apply filter_all_in; intros x _; apply not_elem_of_nil.
  - case_bool_decide as Hin.
    + rewrite (stale_cons_keep _ _ _ _ Hin). apply IH.
    + rewrite (stale_cons_drop _ _ _ _ Hin). simpl.
      destruct (IH (destroy item
                      (set_lookup key
                         (mkLookup
                            (JsMap.delete identifier
                               (byIdentifier (lookup key w)))
                            (byTag (lookup key w))
                            (JsMap.delete item (configBy (lookup key w)))
                            (identifierBy (lookup key w))) w)))
        as [Hid Hcfg].
      rewrite lookup_destroy, lookup_set_lookup_eq in Hid, Hcfg.
      simpl in Hid, Hcfg. rewrite Hid, Hcfg, !JsMap_delete_filter.
      rewrite !list_filter_filter.
      split; apply list_filter_iff; intros e; rewrite not_elem_of_cons;
        tauto.
Qed.

Lemma clean_entries_kept key set entries w :
  Forall (λ e, e.1 ∈ set) entries → clean_entries key set entries w = w.
Proof.
  induction 1 as [|[identifier item] entries Hin _ IH]; simpl; [done|].
  by rewrite bool_decide_eq_true_2.
Qed.

Lemma clean_restricts_views_aux cur key w :
  byIdentifier (lookup key (clean (Some cur) key w))
  = filter (λ e, e.1 ∈ cur.*1)
      (byIdentifier (lookup key w) : list (string * obj)).
Proof.
  destruct (clean_entries_views key cur.*1 (byIdentifier (lookup key w)) w)
    as [Hid _].
  simpl. rewrite lookup_set_lookup_eq. simpl. rewrite Hid.
  apply filter_ext_in. intros [i o] He. simpl.
  rewrite elem_of_stale_keys. split.
  - intros Hn. destruct (decide (i ∈ cur.*1)) as [|Hni]; [done|].
    exfalso. apply Hn. split; [done|].
    apply list_elem_of_fmap. by exists (i, o).
  - tauto.
Qed.

(** X5. For a section that is present, [clean] leaves in the
    identifier->object view the entries whose identifier is a key of the
    section, in their order, and calls [destroy] for the objects of the
    other entries, in registry order, and for nothing else; it drops these
    objects from the object->config view and empties the tag view. *)
Theorem clean_restricts_to_section (cur : list (string * cref))
    (key : LookupKey) (w : World) :
  let w' := clean (Some cur) key w in
  let gone := filter (λ e, e.1 ∉ cur.*1)
                (byIdentifier (lookup key w) : list (string * obj)) in
  byIdentifier (lookup key w')
  = filter (λ e, e.1 ∈ cur.*1)
      (byIdentifier (lookup key w) : list (string * obj))
  ∧ destroyed w' = (destroyed w ++ gone.*2)%list
  ∧ configBy (lookup key w')
    = filter (λ e, e.1 ∉ gone.*2)
        (configBy (lookup key w) : list (obj * cref))
  ∧ byTag (lookup key w') = [].
Proof.
  destruct (clean_spec (Some cur) key w)
    as (_ & _ & _ & Htag & _ & Hdes & _).
  destruct (clean_entries_views key cur.*1 (byIdentifier (lookup key w)) w)
    as [_ Hcfg].
  cbv zeta. split_and!; [| exact Hdes | | exact Htag].
  - apply clean_restricts_views_aux.
  - simpl. rewrite lookup_set_lookup_eq. simpl. exact Hcfg.
Qed.

(** X6. [clean] is idempotent: a second call with the same section
    destroys nothing and leaves the state of the first call. *)
Theorem clean_idempotent (current : Section_) (key : LookupKey) (w : World) :
  clean current key (clean current key w) = clean current key w.
Proof.
  destruct current as [cur|]; [|done].
  set (w1 := clean (Some cur) key w).
  assert (Forall (λ e, e.1 ∈ cur.*1) (byIdentifier (lookup key w1)))
    as Hkept.
  { unfold w1. rewrite clean_restricts_views_aux.
    apply Forall_forall. by intros e [? _]%list_elem_of_filter. }
  unfold clean at 1. rewrite (clean_entries_kept _ _ _ _ Hkept).
  unfold w1, clean. rewrite lookup_set_lookup_eq.
  by destruct key.
Qed.

(** ** The registry invariant *)

Lemma JsMap_get_None_keys {K V} `{EqDecision K} (k : K) (m : JsMap.t K V) :
  JsMap.get k m = None ↔ k ∉ m.*1.
Proof.
  induction m as [|[k' v'] m IH]; simpl.
  - split; [intros _; apply not_elem_of_nil | done].
  - rewrite not_elem_of_cons. destruct (decide (k = k')) as [->|Hne].
    + split; [done | intros [? _]; done].
    + rewrite IH. tauto.
Qed.

Lemma JsMap_set_absent {K V} `{EqDecision K} (k : K) (v : V)
    (m : JsMap.t K V) :
  JsMap.get k m = None → JsMap.set k v m = (m ++ [(k, v)])%list.
Proof.
  induction m as [|[k' v'] m IH]; simpl; [done|].
  destruct (decide (k = k')); [done|]. intros Hget. by rewrite IH.
Qed.

Lemma JsMap_get_Some_values {K V} `{EqDecision K} (k : K) (v : V)
    (m : JsMap.t K V) :
  JsMap.get k m = Some v → v ∈ m.*2.
Proof.
  intros Hget%JsMap_get_Some_elem. apply list_elem_of_fmap. by exists (k, v).
Qed.

Lemma JsMap_get_inj {K V} `{EqDecision K} (k1 k2 : K) (v : V)
    (m : JsMap.t K V) :
  NoDup m.*2 →
  JsMap.get k1 m = Some v → JsMap.get k2 m = Some v → k1 = k2.
Proof.
  induction m as [|[k' v'] m IH]; simpl; [done|].
  rewrite NoDup_cons. intros [Hnin Hnd].
  destruct (decide (k1 = k')) as [->|Hne1], (decide (k2 = k')) as [->|Hne2];
    try done.
  - intros [= ->] Hget. exfalso. apply Hnin.
    by eapply JsMap_get_Some_values.
  - intros Hget [= ->]. exfalso. apply Hnin.
    by eapply JsMap_get_Some_values.
  - by apply IH.
Qed.

Lemma registry_inv_create_one key identifier c w :
  registry_inv key w → registry_inv key (create_one key identifier c w).
Proof.
  intros (Hkeys & Hvals & Halloc). unfold registry_inv.
  destruct (create_one_spec key identifier c w)
    as (-> & _ & _ & _ & _ & _ & -> & _).
  destruct (JsMap.get identifier (byIdentifier (lookup key w))) as [o|]
    eqn:Hget; simpl.
  - by rewrite (JsMap_set_same _ _ _ Hget).
  - rewrite (JsMap_set_absent _ _ _ Hget), !fmap_app. simpl.
    split_and!.
    + apply NoDup_app. split_and!; [done | | apply NoDup_singleton].
      intros i Hi ->%list_elem_of_singleton.
      by apply JsMap_get_None_keys in Hget.
    + apply NoDup_app. split_and!; [done | | apply NoDup_singleton].
      intros o Ho ->%list_elem_of_singleton.
      eapply Forall_forall in Halloc; [|exact Ho]. lia.
    + apply Forall_app. split; [|by repeat constructor].
      eapply Forall_impl; [exact Halloc|]. simpl. lia.
Qed.

Lemma next_obj_create configs key : ∀ w,
  (next_obj w ≤ next_obj (create configs key w))%nat.
Proof.
  destruct configs as [cs|]; [|done].
  induction cs as [|[identifier c] cs IH]; intros w; [done|].
  rewrite create_cons. etrans; [|apply IH].
  destruct (create_one_spec key identifier c w)
    as (_ & _ & _ & _ & _ & _ & -> & _).
  destruct (JsMap.get identifier (byIdentifier (lookup key w))); lia.
Qed.

Lemma registry_inv_weaken key w w' :
  lookup key w' = lookup key w → (next_obj w ≤ next_obj w')%nat →
  registry_inv key w → registry_inv key w'.
Proof.
  intros Hlk Hnext (Hkeys & Hvals & Halloc). unfold registry_inv.
  rewrite Hlk. split_and!; [done | done |].
  eapply Forall_impl; [exact Halloc|]. simpl. lia.
Qed.

Lemma registry_inv_create configs key key' w :
  registry_inv key w → registry_inv key (create configs key' w).
Proof.
  destruct (decide (key = key')) as [<-|Hne].
  - destruct configs as [cs|]; [|done]. revert w.
    induction cs as [|[identifier c] cs IH]; intros w Hinv; [done|].
    rewrite create_cons. by apply IH, registry_inv_create_one.
  - apply registry_inv_weaken; [|apply next_obj_create].
    by apply lookup_create_other.
Qed.

Lemma registry_inv_clean current key key' w :
  registry_inv key w → registry_inv key (clean current key' w).
Proof.
  destruct (clean_spec current key' w)
    as (_ & _ & _ & _ & Hother & _ & _ & Hnext & _).
  destruct (decide (key = key')) as [<-|Hne].
  - destruct current as [cur|]; [|done].
    intros (Hkeys & Hvals & Halloc). unfold registry_inv.
    rewrite Hnext, clean_restricts_views_aux. split_and!.
    + eapply sublist_NoDup; [exact Hkeys|].
      apply fmap_sublist, sublist_filter.
    + eapply sublist_NoDup; [exact Hvals|].
      apply fmap_sublist, sublist_filter.
    + apply Forall_forall. intros o Ho.
      eapply Forall_forall in Halloc; [exact Halloc|].
      eapply elem_of_sublist; [exact Ho|].
      apply fmap_sublist, sublist_filter.
  - apply registry_inv_weaken; [by apply Hother | by rewrite Hnext].
Qed.

Lemma keeps_allocator_pure f :
  (∀ w, (next_obj w ≤ next_obj (f w))%nat) → keeps_allocator (pure f).
Proof. intros Hf w. apply Hf. Qed.

Lemma keeps_allocator_andThen c1 c2 :
  keeps_allocator c1 → keeps_allocator c2 → keeps_allocator (c1 &> c2).
Proof.
  intros H1 H2 w. unfold andThen. specialize (H1 w).
  destruct (c1 w) as [[|e] w1]; simpl in *; [|done].
  etrans; [exact H1 | apply H2].
Qed.

Lemma keeps_allocator_formRelationships : keeps_allocator formRelationships.
Proof.
  intros w. unfold formRelationships.
  generalize (childrenByIdentifier w). intros entries. revert w.
  induction entries as [|[identifier children] entries IH]; intros w; simpl;
    [done|].
  destruct (resolve_parent identifier w) as [parent|]; [|done].
  etrans; [|apply IH]. done.
Qed.

Lemma keeps_allocator_setupMasks sprites :
  keeps_allocator (setupMasks sprites).
Proof.
  destruct sprites as [entries|]; [|by intros w]. simpl.
  induction entries as [|[spriteId c] entries IH]; intros w; simpl; [done|].
  destruct (truthy (cfg_mask (config_at w c))); [|apply IH].
  destruct (JsMap.get spriteId (byIdentifier (lookup_Sprite w))); [|done].
  etrans; [|apply IH]. done.
Qed.

Lemma keeps_allocator_initialize key set :
  (∀ o c, keeps_allocator (set o c)) → keeps_allocator (initialize key set).
Proof.
  intros Hset w. unfold initialize.
  generalize (configBy (lookup key w)). intros entries. revert w.
  induction entries as [|[item c] entries IH]; intros w; simpl; [done|].
  unfold andThen at 1, pure at 1.
  destruct (JsMap.has item (parentByChild (addChild item w))).
  - etrans; [|apply IH]. done.
  - unfold andThen. specialize (Hset item c (addChild item w)).
    destruct (set item c (addChild item w)) as [[|e] w1]; simpl in *;
      [|done].
    etrans; [exact Hset | apply IH].
Qed.

Lemma keeps_allocator_finish E input :
  allocator_forward E → keeps_allocator (finish E input).
Proof.
  intros [Hs Hg Hf Ht Hp]. unfold finish.
  repeat apply keeps_allocator_andThen;
    auto using keeps_allocator_formRelationships, keeps_allocator_setupMasks,
      keeps_allocator_initialize.
  by apply keeps_allocator_pure.
Qed.

Lemma registry_inv_cleanup input key w :
  visual key → registry_inv key w → registry_inv key (cleanup input w).
Proof.
  intros Hkey Hinv.
  apply (registry_inv_weaken key
           (clean_all input (set_alias (in_Alias input) w))).
  - apply lookup_cleanup. by destruct Hkey as [-> | ->].
  - done.
  - rewrite clean_all_unfold. do 3 apply registry_inv_clean.
    apply (registry_inv_weaken key w); [apply lookup_set_alias | done..].
Qed.

Lemma registry_inv_registered input key w :
  registry_inv key w → registry_inv key (registered input w).
Proof.
  intros Hinv. unfold registered. do 2 apply registry_inv_create.
  apply (registry_inv_weaken key w);
    [apply lookup_set_childrenByIdentifier | done..].
Qed.

(** X7. The invariant of the identifier->object view of sprites and of
    graphics (no identifier twice, no object under two identifiers, every
    object handed out by the allocator) holds after [prepare] whenever it
    held before, whether [prepare] completes or throws. *)
Theorem prepare_keeps_registry_inv (E : Collaborators) (ok : bool)
    (input : Input) (w : World) (key : LookupKey) :
  well_behaved E → allocator_forward E → visual key →
  registry_inv key w →
  registry_inv key (prepare E ok input w).2.
Proof.
  intros HE HA Hkey Hinv.
  pose proof (registry_inv_cleanup input key w Hkey Hinv) as Hclean.
  destruct (load_frame ok input (cleanup input w))
    as (Hlk & _ & Hnext & _).
  rewrite prepare_unfold. unfold andThen at 1.
  destruct (load ok input (cleanup input w)) as [[|e] wl];
    cbn [snd] in Hlk, Hnext.
  - apply (registry_inv_weaken key (registered input wl)).
    + apply (visuals_lookup key _ _ Hkey), (keeps_finish E input HE).
    + apply (keeps_allocator_finish E input HA).
    + apply registry_inv_registered.
      apply (registry_inv_weaken key (cleanup input w));
        [apply Hlk | by rewrite Hnext | done].
  - cbn [snd]. apply (registry_inv_weaken key (cleanup input w));
      [apply Hlk | by rewrite Hnext | done].
Qed.

Lemma idle_allocator_forward : allocator_forward idle.
Proof. split; unfold keeps_allocator; simpl; intros; lia. Qed.

Lemma registry_inv_createScope key sheets :
  registry_inv key (createScope sheets).
Proof. destruct key; repeat split; constructor. Qed.

Lemma prepare_keeps_registry_inv_witness :
  registry_inv Sprite (prepare idle true snapshot_ab (createScope false)).2.
Proof.
  apply (prepare_keeps_registry_inv idle true snapshot_ab (createScope false)
           Sprite idle_well_behaved idle_allocator_forward);
    [by left | apply registry_inv_createScope].
Defined.

(** ** [create] *)

(** The fields of the objects and the staging map after one iteration. *)
Lemma create_one_rest key identifier c w :
  let w' := create_one key identifier c w in
  let pixi := default (next_obj w)
                (JsMap.get identifier (byIdentifier (lookup key w))) in
  filtersOf w' = JsMap.set pixi [] (filtersOf w)
  ∧ childrenByIdentifier w'
    = match truthy (cfg_parent (config_at w c)) with
      | Some parent => setOrAppend parent pixi (childrenByIdentifier w)
      | None => childrenByIdentifier w
      end.
Proof.
  unfold create_one, get_or_make. simpl.
  by destruct (JsMap.get identifier (byIdentifier (lookup key w))) as [o|];
    destruct (truthy (cfg_parent (config_at w c)));
    destruct (truthy (cfg_tag (config_at w c))).
Qed.

(** The later iterations of [create] leave the entries of an object alone
    when its identifier is not theirs. *)
Lemma create_other_views cs key identifier o : ∀ w,
  registry_inv key w →
  identifier ∉ cs.*1 →
  JsMap.get identifier (byIdentifier (lookup key w)) = Some o →
  JsMap.get o (configBy (lookup key (create (Some cs) key w)))
  = JsMap.get o (configBy (lookup key w))
  ∧ JsMap.get o (identifierBy (lookup key (create (Some cs) key w)))
    = JsMap.get o (identifierBy (lookup key w)).
Proof.
  induction cs as [|[identifier' c] cs IH]; intros w Hinv Hnin Hget; [done|].
  simpl in Hnin. apply not_elem_of_cons in Hnin as [Hne Hnin].
  rewrite create_cons.
  destruct (create_one_spec key identifier' c w)
    as (Hid & _ & Hcfg & Hidby & _).
  destruct (IH (create_one key identifier' c w)) as [-> ->].
  - by apply registry_inv_create_one.
  - done.
  - by rewrite Hid, JsMap_get_set_ne.
  - assert (o ≠ default (next_obj w)
                  (JsMap.get identifier' (byIdentifier (lookup key w))))
      as Hfresh.
    { destruct Hinv as (_ & Hvals & Halloc).
      destruct (JsMap.get identifier' (byIdentifier (lookup key w)))
        as [o'|] eqn:Hget'; simpl.
      - intros ->. apply Hne. by eapply JsMap_get_inj.
      - apply JsMap_get_Some_values in Hget.
        eapply Forall_forall in Halloc; [|exact Hget]. lia. }
    by rewrite Hcfg, Hidby, !JsMap_get_set_ne.
Qed.

(** From a state that satisfies the registry invariant, and for a section
    without repeated identifiers, [create] leaves the views in agreement
    on every identifier of the section. *)
Lemma create_views_agree (cs : list (string * cref)) (key : LookupKey)
    (w : World) (identifier : string) (c : cref) :
  registry_inv key w →
  NoDup cs.*1 →
  (identifier, c) ∈ cs →
  let l := lookup key (create (Some cs) key w) in
  ∃ o,
    JsMap.get identifier (byIdentifier l) = Some o
    ∧ JsMap.get o (configBy l) = Some c
    ∧ JsMap.get o (identifierBy l) = Some identifier.
Proof.
  revert w. induction cs as [|[identifier' c'] cs IH];
    intros w Hinv Hnodup Hin; [by apply elem_of_nil in Hin|].
  simpl in Hnodup. apply NoDup_cons in Hnodup as [Hnin Hnodup].
  cbv zeta. rewrite create_cons.
  apply elem_of_cons in Hin as [[= -> ->]|Hin].
  - destruct (create_one_spec key identifier' c' w)
      as (Hid & _ & Hcfg & Hidby & _).
    set (pixi := default (next_obj w)
                   (JsMap.get identifier' (byIdentifier (lookup key w))))
      in *.
    set (w1 := create_one key identifier' c' w) in *.
    assert (JsMap.get identifier' (byIdentifier (lookup key w1)) = Some pixi)
      as Hpixi by (rewrite Hid; apply JsMap_get_set_eq).
    exists pixi.
    destruct (create_other_views cs key identifier' pixi w1) as [-> ->];
      [by apply registry_inv_create_one | done | done |].
    split_and!.
    + by apply create_keeps_binding.
    + rewrite Hcfg. apply JsMap_get_set_eq.
    + rewrite Hidby. apply JsMap_get_set_eq.
  - apply IH; [by apply registry_inv_create_one | done | done].
Qed.

Lemma prepare_pass_inv E ok input w w' key :
  well_behaved E → visual key → registry_inv key w →
  prepare E ok input w = (Done, w') →
  ∃ wm,
    lookup key w' = lookup key (create (in_section key input) key wm)
    ∧ registry_inv key wm.
Proof.
  intros HE Hkey Hinv Hdone.
  destruct (prepare_Done _ _ _ _ _ HE Hdone) as (wl & Hload & Hvis).
  destruct (load_frame ok input (cleanup input w))
    as (Hlk & _ & Hnext & _).
  rewrite Hload in Hlk, Hnext. cbn [snd] in Hlk, Hnext.
  set (w0 := set_childrenByIdentifier JsMap.empty wl).
  assert (registry_inv key w0) as Hinv0.
  { apply (registry_inv_weaken key (cleanup input w)).
    - unfold w0. by rewrite lookup_set_childrenByIdentifier.
    - unfold w0. simpl. by rewrite Hnext.
    - by apply registry_inv_cleanup. }
  pose proof (visuals_lookup key _ _ Hkey Hvis) as Hw'.
  unfold registered in Hw'. fold w0 in Hw'.
  destruct Hkey as [-> | ->].
  - exists (create (in_Graphic input) Graphic w0).
    split; [done | by apply registry_inv_create].
  - exists w0. split; [|done].
    by rewrite Hw', lookup_create_other.
Qed.

(** X8. After a completed [prepare] from a state that satisfies the
    registry invariant, the views of a visual kind agree on every
    identifier of its section, when the section names no identifier twice:
    the identifier has an object, the object->config view maps that object
    to the identifier's config, and the object->identifier view maps it
    back to the identifier. *)
Theorem prepare_views_agree (E : Collaborators) (ok : bool) (input : Input)
    (w w' : World) (key : LookupKey) (s : list (string * cref))
    (identifier : string) (c : cref) :
  well_behaved E → visual key →
  registry_inv key w →
  prepare E ok input w = (Done, w') →
  in_section key input = Some s →
  NoDup s.*1 →
  (identifier, c) ∈ s →
  ∃ o,
    JsMap.get identifier (byIdentifier (lookup key w')) = Some o
    ∧ JsMap.get o (configBy (lookup key w')) = Some c
    ∧ JsMap.get o (identifierBy (lookup key w')) = Some identifier.
Proof.
  intros HE Hkey Hinv Hdone Hsec Hnodup Hin.
  destruct (prepare_pass_inv _ _ _ _ _ key HE Hkey Hinv Hdone)
    as (wm & -> & Hinvm).
  rewrite Hsec. by apply create_views_agree.
Qed.

Lemma prepare_views_agree_witness :
  ∃ o,
    JsMap.get "b"%string (byIdentifier (lookup Sprite after_ab)) = Some o
    ∧ JsMap.get o (configBy (lookup Sprite after_ab)) = Some 1%nat
    ∧ JsMap.get o (identifierBy (lookup Sprite after_ab)) = Some "b"%string.
Proof.
  apply (prepare_views_agree idle true snapshot_ab demo_scope after_ab Sprite
           [("a"%string, 0%nat); ("b"%string, 1%nat)] "b"%string 1%nat
           idle_well_behaved).
  - by left.
  - repeat split; constructor.
  - by vm_compute.
  - done.
  - apply NoDup_cons. split; [|apply NoDup_singleton].
    by intros ?%list_elem_of_singleton.
  - right. left.
Defined.

(** The factory calls of [create], exactly. *)
Lemma create_factory_calls configs key : ∀ w,
  ∃ new,
    made (create configs key w) = (made w ++ new)%list
    ∧ (∀ identifier,
         (∃ o, (key, identifier, o) ∈ new)
         ↔ (∃ cs, configs = Some cs ∧ identifier ∈ cs.*1)
           ∧ JsMap.get identifier (byIdentifier (lookup key w)) = None)
    ∧ (∀ key' identifier o,
         (key', identifier, o) ∈ new →
         key' = key
         ∧ JsMap.get identifier
             (byIdentifier (lookup key (create configs key w))) = Some o
         ∧ (next_obj w ≤ o < next_obj (create configs key w))%nat)
    ∧ NoDup new.*2.
Proof.
  destruct configs as [cs|]; cycle 1.
  { intros w. exists []. split_and!.
    - by rewrite app_nil_r.
    - intros i. split; [by intros [? ?%elem_of_nil]|].
      by intros [(? & ? & _) _].
    - by intros ??? ?%elem_of_nil.
    - constructor. }
  induction cs as [|[identifier c] cs IH]; intros w.
  - exists []. split_and!.
    + by rewrite app_nil_r.
    + intros i. split; [by intros [? ?%elem_of_nil]|].
      by intros [(? & [= <-] & ?%elem_of_nil) _].
    + by intros ??? ?%elem_of_nil.
    + constructor.
  - rewrite create_cons.
    destruct (create_one_spec key identifier c w)
      as (Hid & _ & _ & _ & _ & Hmade & Hnext & _).
    set (w1 := create_one key identifier c w) in *.
    destruct (IH w1) as (new & Hnew & Hiff & Hreg & Hnodup).
    pose proof (next_obj_create (Some cs) key w1) as Hmono.
    destruct (JsMap.get identifier (byIdentifier (lookup key w))) as [o0|]
      eqn:Hget; simpl in Hid, Hmade, Hnext.
    + (* recycled: no call for this identifier *)
      rewrite app_nil_r in Hmade. exists new. rewrite Hnew, Hmade.
      split_and!; [done | | | done].
      * intros i. rewrite Hiff, Hid, JsMap_get_set. split.
        -- intros [(cs' & [= <-] & Hi) Hnone]. case_decide; [done|].
           split; [|done]. eexists. split; [done | by right].
        -- intros [(cs' & [= <-] & Hi) Hnone].
           case_decide as Heq; [congruence|]. split; [|done].
           eexists. split; [done|].
           simpl in Hi. by apply elem_of_cons in Hi as [?|?].
      * intros k i o Hin. destruct (Hreg k i o Hin) as (-> & Hb & Hrange).
        split_and!; [done | done | lia..].
    + (* created: one call, for a new object *)
      exists ((key, identifier, next_obj w) :: new).
      rewrite Hnew, Hmade, <- app_assoc. split_and!; [done | | |].
      * intros i. split.
        -- intros [o [[= -> ->]|Hin]%elem_of_cons].
           ++ split; [|done]. eexists. split; [done | left].
           ++ destruct (proj1 (Hiff i) (ex_intro _ o Hin))
                as [(cs' & [= <-] & Hi) Hnone].
              rewrite Hid, JsMap_get_set in Hnone.
              case_decide; [done|]. split; [|done].
              eexists. split; [done | by right].
        -- intros [(cs' & [= <-] & Hi) Hnone].
           destruct (decide (i = identifier)) as [->|Hne].
           ++ eexists. left.
           ++ destruct (proj2 (Hiff i)) as [o Ho].
              { split.
                - eexists. split; [done|]. simpl in Hi.
                  by apply elem_of_cons in Hi as [?|?].
                - by rewrite Hid, JsMap_get_set_ne. }
              exists o. by right.
      * intros k i o [[= -> -> ->]|Hin]%elem_of_cons.
        -- split_and!; [done | | lia..].
           apply create_keeps_binding. rewrite Hid. apply JsMap_get_set_eq.
        -- destruct (Hreg k i o Hin) as (-> & Hb & Hrange).
           split_and!; [done | done | lia..].
      * simpl. apply NoDup_cons. split; [|done].
        intros ([[k i] o] & Heq & Hin)%list_elem_of_fmap. simpl in Heq.
        subst o. destruct (Hreg k i _ Hin) as (_ & _ & Hrange). lia.
Qed.

(** X9. A completed [prepare] calls the factory of a visual kind exactly
    for the identifiers of the kind's section that were not registered
    when [prepare] was called; the object of each call is the one the
    identifier is registered to afterwards, and no two calls return the
    same object. *)
Theorem prepare_factory_calls (E : Collaborators) (ok : bool)
    (input : Input) (w w' : World) :
  well_behaved E →
  prepare E ok input w = (Done, w') →
  ∃ new,
    made w' = (made w ++ new)%list
    ∧ (∀ key identifier,
         visual key →
         (∃ o, (key, identifier, o) ∈ new)
         ↔ (∃ s, in_section key input = Some s ∧ identifier ∈ s.*1)
           ∧ JsMap.get identifier (byIdentifier (lookup key w)) = None)
    ∧ (∀ key identifier o,
         (key, identifier, o) ∈ new →
         visual key
         ∧ JsMap.get identifier (byIdentifier (lookup key w')) = Some o)
    ∧ NoDup new.*2.
Proof.
  intros HE Hdone.
  destruct (prepare_Done _ _ _ _ _ HE Hdone) as (wl & Hload & Hvis).
  destruct (load_frame ok input (cleanup input w)) as (Hlk & Hmade & _).
  rewrite Hload in Hlk, Hmade. cbn [snd] in Hlk, Hmade.
  destruct (cleanup_frame input w) as (Hmade0 & _).
  unfold visuals, registered in Hvis.
  set (w0 := set_childrenByIdentifier JsMap.empty wl) in *.
  set (wG := create (in_Graphic input) Graphic w0) in *.
  injection Hvis as HS HG Hm.
  destruct (create_factory_calls (in_Graphic input) Graphic w0)
    as (newG & HnewG & HiffG & HregG & HndG). fold wG in HnewG, HregG.
  destruct (create_factory_calls (in_Sprite input) Sprite wG)
    as (newS & HnewS & HiffS & HregS & HndS).
  assert (∀ key, visual key →
            lookup key w0
            = lookup key (clean_all input (set_alias (in_Alias input) w)))
    as Hw0.
  { intros key Hkey. unfold w0.
    rewrite lookup_set_childrenByIdentifier, Hlk.
    apply lookup_cleanup. by destruct Hkey as [-> | ->]. }
  assert (∀ key identifier, visual key →
            ((∃ s, in_section key input = Some s ∧ identifier ∈ s.*1)
             ∧ JsMap.get identifier (byIdentifier (lookup key w0)) = None)
            ↔ ((∃ s, in_section key input = Some s ∧ identifier ∈ s.*1)
               ∧ JsMap.get identifier (byIdentifier (lookup key w)) = None))
    as Hold.
  { intros key i Hkey. rewrite (Hw0 key Hkey).
    split; intros [(s & Hs & Hi) Hnone]; (split; [by exists s|]).
    - rewrite (cleaned_binding _ _ s) in Hnone
        by auto using visual_cleaned.
      by rewrite bool_decide_eq_true_2 in Hnone.
    - rewrite (cleaned_binding _ _ s) by auto using visual_cleaned.
      by rewrite bool_decide_eq_true_2. }
  exists (newG ++ newS)%list. split_and!.
  - rewrite Hm, HnewS, HnewG. unfold w0. simpl.
    by rewrite Hmade, Hmade0, <- app_assoc.
  - intros key i Hkey. rewrite <- (Hold key i Hkey).
    destruct Hkey as [-> | ->].
    + rewrite <- (lookup_create_other (in_Graphic input) Graphic Sprite w0)
        by done.
      fold wG. rewrite <- (HiffS i). split.
      * intros [o [Hin|Hin]%elem_of_app]; [|by exists o].
        by destruct (HregG _ _ _ Hin) as [? _].
      * intros [o Hin]. exists o. apply elem_of_app. by right.
    + rewrite <- (HiffG i). split.
      * intros [o [Hin|Hin]%elem_of_app]; [by exists o|].
        by destruct (HregS _ _ _ Hin) as [? _].
      * intros [o Hin]. exists o. apply elem_of_app. by left.
  - intros key i o [Hin|Hin]%elem_of_app.
    + destruct (HregG _ _ _ Hin) as (-> & Hb & _). split; [by right|].
      change (lookup Graphic w') with (lookup_Graphic w'). rewrite HG.
      change (JsMap.get i
                (byIdentifier
                   (lookup Graphic (create (in_Sprite input) Sprite wG)))
              = Some o).
      by rewrite lookup_create_other.
    + destruct (HregS _ _ _ Hin) as (-> & Hb & _). split; [by left|].
      change (lookup Sprite w') with (lookup_Sprite w'). by rewrite HS.
  - rewrite fmap_app. apply NoDup_app. split_and!; [done | | done].
    intros o ([[k i] o'] & -> & HinG)%list_elem_of_fmap
             ([[k2 i2] o2] & Heq & HinS)%list_elem_of_fmap.
    simpl in Heq. subst o2.
    destruct (HregG _ _ _ HinG) as (_ & _ & HrG).
    destruct (HregS _ _ _ HinS) as (_ & _ & HrS). simpl in *. lia.
Qed.

Lemma prepare_factory_calls_witness :
  ∃ new,
    made after_ab = (made demo_scope ++ new)%list
    ∧ (∃ o, (Sprite, "a"%string, o) ∈ new)
    ∧ (∃ o, (Sprite, "b"%string, o) ∈ new)
    ∧ (¬ ∃ o, (Sprite, "c"%string, o) ∈ new)
    ∧ NoDup new.*2.
Proof.
  destruct (prepare_factory_calls idle true snapshot_ab demo_scope after_ab
              idle_well_behaved)
    as (new & Hmade & Hiff & _ & Hnodup); [vm_compute; reflexivity|].
  exists new. split_and!; [exact Hmade | | | | exact Hnodup].
  - apply Hiff; [by left|]. split; [|reflexivity].
    eexists. split; [reflexivity|]. left.
  - apply Hiff; [by left|]. split; [|reflexivity].
    eexists. split; [reflexivity|]. right. left.
  - intros [[s [[= <-] Hin]] _]%Hiff; [|by left].
    vm_compute in Hin.
    apply elem_of_cons in Hin as [[=]|Hin].
    apply elem_of_cons in Hin as [[=]|Hin].
    by apply elem_of_nil in Hin.
Defined.

(** X10. After a completed [prepare], the identifiers registered for a
    visual kind whose section is present are exactly the identifiers of
    the section. *)
Theorem prepare_registers_exactly (E : Collaborators) (ok : bool)
    (input : Input) (w w' : World) (key : LookupKey)
    (s : list (string * cref)) :
  well_behaved E → visual key →
  prepare E ok input w = (Done, w') →
  in_section key input = Some s →
  ∀ identifier,
    is_Some (JsMap.get identifier (byIdentifier (lookup key w')))
    ↔ identifier ∈ s.*1.
Proof.
  intros HE Hkey Hdone Hsec identifier. split.
  - intros [o Ho].
    by eapply (prepare_registered_only E ok input w w' key).
  - intros Hin.
    destruct (prepare_pass _ _ _ _ _ key HE Hkey Hdone) as (wm & -> & _).
    rewrite Hsec. destruct (create_binds s key identifier wm Hin) as [o Ho].
    by exists o.
Qed.

Lemma prepare_registers_exactly_witness :
  is_Some (JsMap.get "b"%string
             (byIdentifier
                (lookup Sprite (prepare idle true snapshot_a after_ab).2)))
  ↔ "b"%string ∈ [("a"%string, 2%nat)].*1.
Proof.
  apply (prepare_registers_exactly idle true snapshot_a after_ab
           (prepare idle true snapshot_a after_ab).2 Sprite
           [("a"%string, 2%nat)] idle_well_behaved);
    [by left | by vm_compute | done].
Defined.

Lemma create_filters_kept configs key o : ∀ w,
  JsMap.get o (filtersOf w) = Some [] →
  JsMap.get o (filtersOf (create configs key w)) = Some [].
Proof.
  destruct configs as [cs|]; [|done].
  induction cs as [|[identifier c] cs IH]; intros w Hget; [done|].
  rewrite create_cons. apply IH.
  destruct (create_one_rest key identifier c w) as [-> _].
  rewrite JsMap_get_set. by case_decide.
Qed.

(** X11. [create] resets the filters of the object of every identifier of
    the section, whether the object is new or recycled. *)
Theorem create_resets_filters (cs : list (string * cref)) (key : LookupKey)
    (w : World) (identifier : string) :
  identifier ∈ cs.*1 →
  ∃ o,
    JsMap.get identifier
      (byIdentifier (lookup key (create (Some cs) key w))) = Some o
    ∧ JsMap.get o (filtersOf (create (Some cs) key w)) = Some [].
Proof.
  revert w. induction cs as [|[identifier' c] cs IH]; intros w Hin;
    simpl in Hin; [by apply elem_of_nil in Hin|].
  rewrite create_cons.
  destruct (decide (identifier ∈ cs.*1)) as [Hlater|Hnot]; [by apply IH|].
  apply elem_of_cons in Hin as [->|?]; [|done].
  destruct (create_one_spec key identifier' c w) as (Hid & _).
  destruct (create_one_rest key identifier' c w) as [Hfilters _].
  eexists. split.
  - apply create_keeps_binding. rewrite Hid. apply JsMap_get_set_eq.
  - apply create_filters_kept. rewrite Hfilters. apply JsMap_get_set_eq.
Qed.

Lemma create_resets_filters_witness :
  ∃ o,
    JsMap.get "a"%string
      (byIdentifier
         (lookup Sprite (create (Some [("a"%string, 2%nat)]) Sprite after_ab)))
    = Some o
    ∧ JsMap.get o
        (filtersOf (create (Some [("a"%string, 2%nat)]) Sprite after_ab))
      = Some [].
Proof.
  apply (create_resets_filters [("a"%string, 2%nat)] Sprite after_ab
           "a"%string).
  left.
Defined.

(** ** The relationship graph *)

(** The children that [create] stages under a parent identifier are the
    objects of the identifiers whose config declares that parent. *)
Lemma create_staged cs key parent o : ∀ w,
  o ∈ staged parent (create (Some cs) key w)
  ↔ o ∈ staged parent w
    ∨ ∃ identifier c,
        (identifier, c) ∈ cs
        ∧ declares_parent (config_at w c) parent
        ∧ JsMap.get identifier
            (byIdentifier (lookup key (create (Some cs) key w))) = Some o.
Proof.
  induction cs as [|[identifier c] cs IH]; intros w.
  - simpl. split; [by left|]. intros [?|(? & ? & ?%elem_of_nil & _)]; done.
  - rewrite create_cons, IH. clear IH.
    set (w1 := create_one key identifier c w).
    destruct (create_one_spec key identifier c w)
      as (Hid & _ & _ & _ & _ & _ & _ & Hst & _). fold w1 in Hid, Hst.
    destruct (create_one_rest key identifier c w) as [_ Hcbi].
    fold w1 in Hcbi.
    set (pixi := default (next_obj w)
                   (JsMap.get identifier (byIdentifier (lookup key w))))
      in Hid, Hcbi.
    assert (JsMap.get identifier
              (byIdentifier (lookup key (create (Some cs) key w1)))
            = Some pixi) as Hpixi.
    { apply create_keeps_binding. rewrite Hid. apply JsMap_get_set_eq. }
    assert (o ∈ staged parent w1
            ↔ o ∈ staged parent w
              ∨ (declares_parent (config_at w c) parent ∧ o = pixi))
      as Hstep.
    { unfold staged, declares_parent. rewrite Hcbi.
      destruct (truthy (cfg_parent (config_at w c))) as [p|] eqn:Htruthy.
      - apply truthy_Some in Htruthy as [Hp Hne].
        rewrite get_setOrAppend. case_decide as Heq; simpl.
        + subst p. rewrite elem_of_app, list_elem_of_singleton. tauto.
        + split; [by left|]. intros [?|[[? _] _]]; [done|]. congruence.
      - split; [by left|]. intros [?|[Hdecl _]]; [done|].
        apply truthy_Some in Hdecl. congruence. }
    rewrite Hstep. split.
    + intros [[Hold|[Hdecl ->]]|(i & c' & Hin & Hdecl & Hget)].
      * by left.
      * right. exists identifier, c. split_and!; [left | done | done].
      * right. exists i, c'. split_and!; [by right | | done].
        by rewrite <- (config_at_ext w1 w c' Hst).
    + intros [Hold|(i & c' & [[= -> ->]|Hin]%elem_of_cons & Hdecl & Hget)].
      * by left; left.
      * left. right. split; [done|]. congruence.
      * right. exists i, c'. split_and!; [done | | done].
        by rewrite (config_at_ext w1 w c' Hst).
Qed.

Lemma create_staged_section configs key parent o w :
  o ∈ staged parent (create configs key w)
  ↔ o ∈ staged parent w
    ∨ ∃ cs identifier c,
        configs = Some cs
        ∧ (identifier, c) ∈ cs
        ∧ declares_parent (config_at w c) parent
        ∧ JsMap.get identifier
            (byIdentifier (lookup key (create configs key w))) = Some o.
Proof.
  destruct configs as [cs|].
  - rewrite create_staged. split.
    + intros [?|(i & c & ?)]; [by left|]. right. by exists cs, i, c.
    + intros [?|(cs' & i & c & [= <-] & ?)]; [by left|]. right.
      by exists i, c.
  - simpl. split; [by left|]. by intros [?|(? & ? & ? & ? & _)].
Qed.

(** X12. After the first three steps of [configure] (the staging map is
    cleared, then graphics and sprites are created), the children staged
    under a parent identifier are exactly the objects registered for the
    identifiers, of either kind, whose config declares that parent as a
    non-empty string. *)
Theorem registered_stages_children (input : Input) (w : World)
    (parent : string) (o : obj) :
  let w' := registered input w in
  o ∈ staged parent w'
  ↔ ∃ key s identifier c,
      visual key
      ∧ in_section key input = Some s
      ∧ (identifier, c) ∈ s
      ∧ declares_parent (config_at w c) parent
      ∧ JsMap.get identifier (byIdentifier (lookup key w')) = Some o.
Proof.
  cbv zeta. unfold registered.
  set (w0 := set_childrenByIdentifier JsMap.empty w).
  set (wG := create (in_Graphic input) Graphic w0).
  destruct (create_frame (in_Graphic input) Graphic w0) as (_ & HstG & _).
  fold wG in HstG.
  rewrite create_staged_section. unfold wG at 1.
  rewrite create_staged_section. fold wG.
  assert (staged parent w0 = []) as -> by done.
  split.
  - intros [[?%elem_of_nil|(cs & i & c & Hsec & Hin & Hdecl & Hget)]
           |(cs & i & c & Hsec & Hin & Hdecl & Hget)]; [done| |].
    + exists Graphic, cs, i, c. split_and!; [by right | done..|].
      by rewrite lookup_create_other.
    + exists Sprite, cs, i, c. split_and!; [by left | done | done | | done].
      by rewrite <- (config_at_ext wG w c HstG).
  - intros (key & cs & i & c & [-> | ->] & Hsec & Hin & Hdecl & Hget).
    + right. exists cs, i, c. split_and!; [done | done | | done].
      by rewrite (config_at_ext wG w c HstG).
    + left. right. exists cs, i, c. split_and!; [done..|].
      by rewrite lookup_create_other in Hget.
Qed.

Lemma resolve_parent_link identifier parent children w :
  resolve_parent identifier (link parent children w)
  = resolve_parent identifier w.
Proof. done. Qed.

Lemma formRelationships_entries_throws entries : ∀ w,
  (formRelationships_entries entries w).1 = Throw TypeError
  ↔ ∃ identifier,
      identifier ∈ entries.*1 ∧ resolve_parent identifier w = None.
Proof.
  induction entries as [|[identifier children] entries IH]; intros w; simpl.
  - split; [done|]. by intros (? & ?%elem_of_nil & _).
  - destruct (resolve_parent identifier w) as [parent|] eqn:Hres.
    + rewrite IH. split.
      * intros (i & Hi & Hnone). exists i. split; [by right|].
        by rewrite resolve_parent_link in Hnone.
      * intros (i & [->|Hi]%elem_of_cons & Hnone); [congruence|].
        exists i. split; [done|]. by rewrite resolve_parent_link.
    + split; [|done]. intros _. exists identifier. split; [left | done].
Qed.

(** X13. [formRelationships] throws exactly when some identifier under
    which children are staged is no sprite identifier and the alias table
    is [undefined], or has no entry for it and inherits none from
    [Object.prototype] (as it does for ["constructor"] or ["toString"]);
    the error is a [TypeError]. *)
Theorem formRelationships_throws_iff (w : World) :
  (formRelationships w).1 ≠ Done
  ↔ ∃ identifier,
      identifier ∈ (childrenByIdentifier w).*1
      ∧ JsMap.get identifier (byIdentifier (lookup Sprite w)) = None
      ∧ ∀ table, alias w = Some table →
          table !! identifier = None ∧ identifier ∉ Object_prototype.
Proof.
  unfold formRelationships.
  pose proof (formRelationships_entries_throws (childrenByIdentifier w) w)
    as Hthrows.
  assert ((formRelationships_entries (childrenByIdentifier w) w).1 ≠ Done
          ↔ (formRelationships_entries (childrenByIdentifier w) w).1
            = Throw TypeError) as ->.
  { split; [|by intros ->]. intros Hne.
    destruct (formRelationships_entries (childrenByIdentifier w) w).1
      as [|e] eqn:Hout; [done|].
    assert (e = TypeError) as ->; [|done].
    clear Hthrows Hne. revert Hout. generalize w at 2.
    induction (childrenByIdentifier w) as [|[i ch] entries IH]; intros w0;
      simpl; [done|].
    destruct (resolve_parent i w0); [apply IH | by intros [= <-]]. }
  rewrite Hthrows. split.
  - intros (i & Hi & Hnone%resolve_parent_throws). by exists i.
  - intros (i & Hi & Hnone). exists i. split; [done|].
    by apply resolve_parent_throws.
Qed.

Lemma foldl_set_parent (parent : option obj) (children : list obj)
    (child : obj) : ∀ (m : JsMap.t obj (option obj)),
  JsMap.get child (foldl (λ m ch, JsMap.set ch parent m) m children)
  = if bool_decide (child ∈ children) then Some parent
    else JsMap.get child m.
Proof.
  induction children as [|ch children IH]; intros m; simpl; [done|].
  rewrite IH, JsMap_get_set.
  destruct (decide (child = ch)) as [->|Hne].
  - rewrite (bool_decide_eq_true_2 (ch ∈ ch :: children)) by left.
    by case_bool_decide.
  - rewrite (bool_decide_ext (child ∈ ch :: children) (child ∈ children));
      [done|].
    rewrite elem_of_cons. tauto.
Qed.

Lemma parentByChild_link parent children child w :
  JsMap.get child (parentByChild (link parent children w))
  = if bool_decide (child ∈ children) then Some parent
    else JsMap.get child (parentByChild w).
Proof. apply foldl_set_parent. Qed.

(** The child->parent view after the loop of [formRelationships]: a child
    has the resolved parent of the last entry that lists it. *)
Lemma formRelationships_entries_parent entries child : ∀ w w',
  formRelationships_entries entries w = (Done, w') →
  (Forall (λ e, child ∉ e.2) entries
   ∧ JsMap.get child (parentByChild w') = JsMap.get child (parentByChild w))
  ∨ (∃ before identifier children after parent,
       entries = (before ++ (identifier, children) :: after)%list
       ∧ child ∈ children
       ∧ Forall (λ e, child ∉ e.2) after
       ∧ resolve_parent identifier w = Some parent
       ∧ JsMap.get child (parentByChild w') = Some parent).
Proof.
  induction entries as [|[identifier children] entries IH]; intros w w';
    simpl.
  - intros [= <-]. left. by split.
  - destruct (resolve_parent identifier w) as [parent|] eqn:Hres; [|done].
    intros Hdone.
    destruct (IH _ _ Hdone)
      as [[Hall Hget]
         |(before & i & ch & after & p & -> & Hin & Hall & Hp & Hget)].
    + rewrite parentByChild_link in Hget. case_bool_decide as Hin.
      * right. exists [], identifier, children, entries, parent.
        by split_and!.
      * left. split; [|done]. by constructor.
    + right. exists ((identifier, children) :: before), i, ch, after, p.
      rewrite resolve_parent_link in Hp. by split_and!.
Qed.

(** X14. When [formRelationships] completes, a child listed under a staged
    identifier, and under none of the identifiers staged after it, has as
    parent what the identifier resolves to: the sprite of that identifier,
    or else the sprite of the asset path that the alias table gives for
    it, which may be [undefined]. *)
Theorem formRelationships_parent (w w' : World)
    (before : list (string * list obj))
    (identifier : string) (children : list obj)
    (after : list (string * list obj)) (child : obj) :
  formRelationships w = (Done, w') →
  childrenByIdentifier w = (before ++ (identifier, children) :: after)%list →
  child ∈ children →
  Forall (λ e, child ∉ e.2) after →
  ∃ parent,
    resolve_parent identifier w = Some parent
    ∧ JsMap.get child (parentByChild w') = Some parent
    ∧ parent
      = match JsMap.get identifier (byIdentifier (lookup Sprite w)) with
        | Some sprite => Some sprite
        | None =>
            table ← alias w;
            assetPath ← table !! identifier;
            JsMap.get assetPath (byIdentifier (lookup Sprite w))
        end.
Proof.
  unfold formRelationships. intros Hdone Hsplit Hin Hafter.
  destruct (formRelationships_entries_parent _ child _ _ Hdone)
    as [[Hall _]
       |(b2 & i2 & ch2 & a2 & p & Hsplit2 & Hin2 & Hall2 & Hp & Hget)].
  - exfalso. rewrite Hsplit in Hall. apply Forall_app in Hall as [_ Hall].
    apply Forall_cons in Hall as [Hnot _]. done.
  - rewrite Hsplit in Hsplit2.
    apply (last_hit_suffix (λ e, child ∈ e.2)) in Hsplit2
      as (_ & [= <- <-] & _); [|done..].
    exists p. split_and!; [done | done |].
    revert Hp. unfold resolve_parent, member. simpl.
    destruct (JsMap.get identifier (byIdentifier (lookup_Sprite w)));
      [by intros [= <-]|].
    destruct (alias w) as [table|]; [|done]. simpl.
    destruct (table !! identifier); simpl; [by intros [= <-]|].
    case_bool_decide; [by intros [= <-] | done].
Qed.

Lemma formRelationships_parent_witness :
  JsMap.get 1%nat (parentByChild (formRelationships staged_family).2)
  = Some (Some 0%nat).
Proof.
  destruct (formRelationships_parent staged_family
              (formRelationships staged_family).2 [] "mama"%string [1%nat]
              [] 1%nat) as (parent & _ & Hget & ->);
    [by vm_compute | by vm_compute | left | constructor |].
  exact Hget.
Defined.

(** X15. When [formRelationships] completes on a cleared graph, the
    objects that have an entry in the child->parent view, which are the
    ones [initialize] leaves to their parent's setter, are exactly the
    staged children. *)
Theorem formRelationships_children (w w' : World) (child : obj) :
  formRelationships w = (Done, w') →
  parentByChild w = JsMap.empty →
  JsMap.has child (parentByChild w') = true
  ↔ ∃ identifier children,
      (identifier, children) ∈ childrenByIdentifier w ∧ child ∈ children.
Proof.
  unfold formRelationships, JsMap.has. intros Hdone Hempty.
  destruct (formRelationships_entries_parent _ child _ _ Hdone)
    as [[Hall ->]
       |(before & i & ch & after & p & Hsplit & Hin & _ & _ & ->)].
  - rewrite Hempty. simpl. split; [done|].
    intros (i & ch & Hin & Hchild).
    eapply Forall_forall in Hall; [|exact Hin]. done.
  - split; [|done]. intros _. exists i, ch. split; [|done].
    rewrite Hsplit. apply elem_of_app. right. left.
Qed.

Lemma formRelationships_children_witness :
  JsMap.has 1%nat (parentByChild (formRelationships staged_family).2) = true
  ↔ ∃ identifier children,
      (identifier, children) ∈ childrenByIdentifier staged_family
      ∧ 1%nat ∈ children.
Proof.
  apply (formRelationships_children staged_family
           (formRelationships staged_family).2 1%nat);
    by vm_compute.
Defined.

(** ** [initialize], [setupMasks], [load] *)




(** X17. [setupMasks] throws exactly when the sprite section is
    [undefined] or a sprite of the section that declares a mask is not
    registered; a mask identifier that no graphic has raises nothing. *)
Theorem setupMasks_throws_iff (sprites : Section_) (w : World) :
  (setupMasks sprites w).1 ≠ Done
  ↔ sprites = None
    ∨ ∃ cs spriteId c,
        sprites = Some cs
        ∧ (spriteId, c) ∈ cs
        ∧ truthy (cfg_mask (config_at w c)) ≠ None
        ∧ JsMap.get spriteId (byIdentifier (lookup Sprite w)) = None.
Proof.
  destruct sprites as [cs|]; simpl; [|split; [by left | done]].
  assert ((setupMasks_entries cs w).1 ≠ Done
          ↔ ∃ spriteId c,
              (spriteId, c) ∈ cs
              ∧ truthy (cfg_mask (config_at w c)) ≠ None
              ∧ JsMap.get spriteId (byIdentifier (lookup Sprite w)) = None)
    as ->.
  { revert w. induction cs as [|[spriteId c] cs IH]; intros w; simpl.
    - split; [done|]. by intros (? & ? & ?%elem_of_nil & _).
    - destruct (truthy (cfg_mask (config_at w c))) as [mask|] eqn:Hmask.
      + destruct (JsMap.get spriteId (byIdentifier (lookup_Sprite w)))
          as [sprite|] eqn:Hsprite.
        * rewrite IH. split.
          -- intros (i & c' & Hin & Hm & Hnone). exists i, c'.
             split_and!; [by right | done | done].
          -- intros (i & c' & [[= -> ->]|Hin]%elem_of_cons & Hm & Hnone).
             ++ simpl in Hnone. congruence.
             ++ exists i, c'. by split_and!.
        * split; [|done]. intros _. exists spriteId, c.
          split_and!; [left | by rewrite Hmask | done].
      + rewrite IH. split.
        * intros (i & c' & Hin & Hm & Hnone). exists i, c'.
          split_and!; [by right | done | done].
        * intros (i & c' & [[= -> ->]|Hin]%elem_of_cons & Hm & Hnone);
            [congruence|].
          exists i, c'. by split_and!. }
  split.
  - intros (i & c & ?). right. by exists cs, i, c.
  - intros [?|(cs' & i & c & [= <-] & ?)]; [done|]. by exists i, c.
Qed.

(** X18. Once a scope with sprite sheets has loaded, its textures are
    cached: every later load completes at once, whatever the loader would
    answer and whatever the input, and changes nothing. *)
Theorem load_caches (ok : bool) (input : Input) (w w1 : World) :
  spritesheets w = true →
  load ok input w = (Done, w1) →
  ∀ ok' input', load ok' input' w1 = (Done, w1).
Proof.
  unfold load. intros Hsheets. rewrite Hsheets. simpl.
  destruct (texturesFromSheet w) eqn:Hcached.
  - intros [= <-] ok' input'. by rewrite Hsheets, Hcached.
  - destruct (in_Sprite input); [|done]. destruct ok; [|done].
    intros [= <-] ok' input'. simpl. by rewrite Hsheets.
Qed.

Lemma load_caches_witness :
  load false snapshot_no_sprites (load true snapshot_ab (createScope true)).2
  = (Done, (load true snapshot_ab (createScope true)).2).
Proof.
  apply (load_caches true snapshot_ab (createScope true)
           (load true snapshot_ab (createScope true)).2);
    done.
Defined.

Lemma setupMasks_entries_other entries sprite : ∀ w w',
  setupMasks_entries entries w = (Done, w') →
  NoDup (byIdentifier (lookup Sprite w)).*2 →
  (∀ spriteId c, (spriteId, c) ∈ entries →
     JsMap.get spriteId (byIdentifier (lookup Sprite w)) ≠ Some sprite) →
  JsMap.get sprite (maskOf w') = JsMap.get sprite (maskOf w).
Proof.
  induction entries as [|[spriteId c] entries IH]; intros w w'; simpl.
  - by intros [= <-].
  - destruct (truthy (cfg_mask (config_at w c))) as [mask|].
    + destruct (JsMap.get spriteId (byIdentifier (lookup_Sprite w)))
        as [sprite'|] eqn:Hsprite; [|done].
      intros Hdone Hnodup Hother.
      rewrite (IH _ _ Hdone); [|exact Hnodup|].
      * simpl. rewrite JsMap_get_set_ne; [done|].
        intros ->. by apply (Hother spriteId c); [left|].
      * intros i c' Hin. apply (Hother i c'). by right.
    + intros Hdone Hnodup Hother. apply (IH _ _ Hdone Hnodup).
      intros i c' Hin. apply (Hother i c'). by right.
Qed.

(** X19. When [setupMasks] completes, on a registry that holds no sprite
    under two identifiers and for a section without repeated identifiers,
    the mask of a sprite that declares one is the graphic registered under
    the mask identifier, and [undefined] when there is no such graphic. *)
Theorem setupMasks_links (cs : list (string * cref)) (w w' : World)
    (spriteId : string) (c : cref) (mask : string) (sprite : obj) :
  setupMasks (Some cs) w = (Done, w') →
  NoDup cs.*1 →
  NoDup (byIdentifier (lookup Sprite w)).*2 →
  (spriteId, c) ∈ cs →
  truthy (cfg_mask (config_at w c)) = Some mask →
  JsMap.get spriteId (byIdentifier (lookup Sprite w)) = Some sprite →
  JsMap.get sprite (maskOf w')
  = Some (JsMap.get mask (byIdentifier (lookup Graphic w))).
Proof.
  simpl. revert w.
  induction cs as [|[spriteId' c'] cs IH];
    intros w Hdone Hnodup Hvals Hin Hmask Hsprite;
    [by apply elem_of_nil in Hin|].
  simpl in Hnodup. apply NoDup_cons in Hnodup as [Hnin Hnodup].
  simpl in Hdone.
  apply elem_of_cons in Hin as [[= <- <-]|Hin].
  - rewrite Hmask in Hdone. simpl in Hsprite. rewrite Hsprite in Hdone.
    rewrite (setupMasks_entries_other cs sprite _ _ Hdone);
      [|exact Hvals|].
    + simpl. apply JsMap_get_set_eq.
    + intros i c2 Hin2 Heq. apply Hnin. apply list_elem_of_fmap.
      exists (i, c2). split; [|done]. simpl.
      by apply (JsMap_get_inj _ _ sprite _ Hvals).
  - destruct (truthy (cfg_mask (config_at w c'))) as [mask'|];
      [|by apply (IH w)].
    destruct (JsMap.get spriteId' (byIdentifier (lookup_Sprite w)))
      as [sprite'|]; [|done].
    by apply (IH _ Hdone).
Qed.

Lemma setupMasks_links_witness :
  JsMap.get "hole"%string (byIdentifier (lookup Graphic staged_family)) = None
  ∧ JsMap.get 1%nat
      (maskOf
         (setupMasks (Some [("mom"%string, 2%nat); ("kid"%string, 5%nat)])
            staged_family).2)
    = Some (JsMap.get "hole"%string
              (byIdentifier (lookup Graphic staged_family))).
Proof.
  split; [by vm_compute|].
  apply (setupMasks_links [("mom"%string, 2%nat); ("kid"%string, 5%nat)]
           staged_family
           (setupMasks (Some [("mom"%string, 2%nat); ("kid"%string, 5%nat)])
              staged_family).2
           "kid"%string 5%nat "hole"%string 1%nat).
  - by vm_compute.
  - apply NoDup_cons. split; [|apply NoDup_singleton].
    by intros ?%list_elem_of_singleton.
  - vm_compute. apply NoDup_cons. split; [|apply NoDup_singleton].
    by intros ?%list_elem_of_singleton.
  - right. left.
  - by vm_compute.
  - by vm_compute.
Defined.

(** ** [prepare] without a sprite section *)

Lemma formRelationships_error w e :
  (formRelationships w).1 = Throw e → e = TypeError.
Proof.
  unfold formRelationships. generalize w at 2.
  induction (childrenByIdentifier w) as [|[i ch] entries IH]; intros w0;
    simpl; [done|].
  destruct (resolve_parent i w0); [apply IH | by intros [= <-]].
Qed.

(** X20. [clean] tolerates an [undefined] section, but [prepare] does not
    tolerate an [undefined] sprite section: whatever the state, the loader
    and the absent parts of the repository do, it throws a [TypeError],
    from [load] when the textures are not cached and from [configure]
    otherwise. *)
Theorem prepare_without_sprites_throws (E : Collaborators) (ok : bool)
    (input : Input) (w : World) :
  in_Sprite input = None →
  (prepare E ok input w).1 = Throw TypeError.
Proof.
  intros Hnone. rewrite prepare_unfold. unfold andThen at 1, load.
  rewrite Hnone.
  destruct (spritesheets (cleanup input w)
            && texturesFromSheet (cleanup input w)); [|done].
  unfold finish. unfold andThen at 1. unfold andThen at 1.
  set (wr := registered input (cleanup input w)).
  pose proof (formRelationships_error wr) as Herr.
  destruct (formRelationships wr) as [[|e] w1]; simpl in *.
  - by rewrite Hnone.
  - by rewrite (Herr e eq_refl).
Qed.

Lemma prepare_without_sprites_throws_witness :
  (prepare idle true snapshot_no_sprites after_ab).1 = Throw TypeError.
Proof.
  apply (prepare_without_sprites_throws idle true snapshot_no_sprites
           after_ab).
  done.
Defined.

(** ** [rootParent], [setOrAppend] *)

Lemma is_zero_Prim2SF f : is_zero f = true → ∃ s, Prim2SF f = S754_zero s.
Proof.
  unfold is_zero. rewrite FloatAxioms.eqb_spec.
  change (Prim2SF zero) with (S754_zero false).
  destruct (Prim2SF f) as [s|s| |s m e]; [by eauto|..];
    try destruct s; discriminate.
Qed.

(** A finite number minus itself is a zero. *)
Lemma sub_diag_zero h :
  is_finite h = true → ∃ b, Prim2SF (h - h)%float = S754_zero b.
Proof.
  intros Hh. rewrite sub_spec.
  destruct (Prim2SF_is_finite h Hh) as [[b ->]|(b & m & e & ->)].
  - exists false. by destruct b.
  - exists false. unfold SF64sub, SFsub. by rewrite Z.sub_diag.
Qed.

Lemma add_zero_l z t b :
  Prim2SF z = S754_zero b → same_value_zero (z + t)%float t.
Proof.
  intros Hz.
  destruct (Prim2SF t) as [st|st| |st m e] eqn:Ht.
  - right. split; [|by eapply Prim2SF_zero_is_zero].
    apply (Prim2SF_zero_is_zero _ (if Bool.eqb b st then b else false)).
    rewrite add_spec, Ht, Hz. by destruct st, b.
  - left. apply Prim2SF_inj. by rewrite add_spec, Ht, Hz.
  - left. apply Prim2SF_inj. by rewrite add_spec, Ht, Hz.
  - left. apply Prim2SF_inj. by rewrite add_spec, Ht, Hz.
Qed.

Lemma same_value_zero_add_r a b r :
  same_value_zero a b → same_value_zero (a + r)%float (b + r)%float.
Proof.
  intros [->|[[sa Ha]%is_zero_Prim2SF [sb Hb]%is_zero_Prim2SF]]; [by left|].
  destruct (Prim2SF r) as [sr|sr| |sr m e] eqn:Hr.
  - right. split.
    + apply (Prim2SF_zero_is_zero _ (if Bool.eqb sa sr then sa else false)).
      rewrite add_spec, Ha, Hr. by destruct sa, sr.
    + apply (Prim2SF_zero_is_zero _ (if Bool.eqb sb sr then sb else false)).
      rewrite add_spec, Hb, Hr. by destruct sb, sr.
  - left. apply Prim2SF_inj. by rewrite !add_spec, Ha, Hb, Hr.
  - left. apply Prim2SF_inj. by rewrite !add_spec, Ha, Hb, Hr.
  - left. apply Prim2SF_inj. by rewrite !add_spec, Ha, Hb, Hr.
Qed.

(** X21. Against the frame of the screen, a position is measured from the
    left or top edge of the screen: when half the screen's extent is a
    finite number, the center and the half extent cancel exactly, and the
    result is the binary64 value of the parent anchor times the extent,
    plus (0.5 - self anchor) times the self extent, plus the extent times
    the value (up to the sign of a zero). *)
Theorem resolvePosition_in_rootParent (pos : Position)
    (dimension : Dimension) (self : Size)
    (screen_width screen_height : float) :
  let extent :=
    match dimension with X => screen_width | Y => screen_height end in
  is_finite (extent / 2) = true →
  same_value_zero
    (resolvePosition pos dimension self
       (rootParent screen_width screen_height))
    (anchors_parent pos * extent
     + (0.5 - anchors_self pos)
       * match dimension with X => width self | Y => height self end
     + extent * value pos)%float.
Proof.
  intros extent Hfin.
  destruct (sub_diag_zero _ Hfin) as [b Hzero].
  destruct dimension; unfold resolvePosition, rootParent; simpl;
    do 2 apply same_value_zero_add_r; by eapply add_zero_l.
Qed.

Lemma resolvePosition_in_rootParent_witness :
  same_value_zero
    (resolvePosition (mkPosition 0.7 0.5 0.1) X (mkSize 4 4) (rootParent 3 2))
    (0.1 * 3 + (0.5 - 0.5) * 4 + 3 * 0.7)%float.
Proof.
  apply (resolvePosition_in_rootParent (mkPosition 0.7 0.5 0.1) X (mkSize 4 4)
           3 2).
  vm_compute. reflexivity.
Defined.

(** X22. [setOrAppend] on any map: the key's list gets the item as its
    last element, a list being created when the key is new, and the lists
    of the other keys are as before. *)
Theorem setOrAppend_get {K} `{EqDecision K} (key key' : K) (item : obj)
    (map : JsMap.t K (list obj)) :
  JsMap.get key' (setOrAppend key item map)
  = if decide (key' = key)
    then Some (default [] (JsMap.get key map) ++ [item])%list
    else JsMap.get key' map.
Proof.
  unfold setOrAppend.
  destruct (JsMap.get key map) as [l|] eqn:Hget; rewrite JsMap_get_set;
    case_decide; subst; by rewrite ?Hget.
Qed.

(** ** More on the relationship graph and on the hit tester *)

Lemma childrenByParent_link parent children p w :
  JsMap.get p (childrenByParent (link parent children w))
  = if decide (p = parent) then Some children
    else JsMap.get p (childrenByParent w).
Proof. unfold link. simpl. apply JsMap_get_set. Qed.

Lemma formRelationships_entries_last entries p : ∀ w w',
  formRelationships_entries entries w = (Done, w') →
  (Forall (λ e, resolve_parent e.1 w ≠ Some p) entries
   ∧ JsMap.get p (childrenByParent w') = JsMap.get p (childrenByParent w))
  ∨ (∃ before identifier children after,
       entries = (before ++ (identifier, children) :: after)%list
       ∧ resolve_parent identifier w = Some p
       ∧ Forall (λ e, resolve_parent e.1 w ≠ Some p) after
       ∧ JsMap.get p (childrenByParent w') = Some children).
Proof.
  induction entries as [|[identifier children] entries IH]; intros w w';
    simpl.
  - intros [= <-]. left. by split.
  - destruct (resolve_parent identifier w) as [parent|] eqn:Hres; [|done].
    intros Hdone.
    destruct (IH _ _ Hdone)
      as [[Hall Hget]|(before & i & ch & after & -> & Hp & Hall & Hget)].
    + rewrite childrenByParent_link in Hget. case_decide as Heq.
      * right. exists [], identifier, children, entries.
        split_and!; [done | by rewrite Hres, Heq | done | done].
      * left. split; [|done]. constructor; [|done]. simpl.
        rewrite Hres. congruence.
    + right. exists ((identifier, children) :: before), i, ch, after.
      by split_and!.
Qed.

(** X23. When [formRelationships] completes, the parent->children view
    holds for a parent the children staged under the last identifier that
    resolves to it: when a sprite is named as parent both by its identifier
    and through an alias, the children of the earlier of the two entries
    are not among its children. *)
Theorem formRelationships_last_entry_wins (w w' : World)
    (before : list (string * list obj)) (identifier : string)
    (children : list obj) (after : list (string * list obj))
    (parent : option obj) :
  formRelationships w = (Done, w') →
  childrenByIdentifier w = (before ++ (identifier, children) :: after)%list →
  resolve_parent identifier w = Some parent →
  Forall (λ e, resolve_parent e.1 w ≠ Some parent) after →
  JsMap.get parent (childrenByParent w') = Some children.
Proof.
  unfold formRelationships. intros Hdone Hsplit Hres Hafter.
  destruct (formRelationships_entries_last _ parent _ _ Hdone)
    as [[Hall _]|(b2 & i2 & ch2 & a2 & Hsplit2 & Hp & Hall2 & Hget)].
  - exfalso. rewrite Hsplit in Hall. apply Forall_app in Hall as [_ Hall].
    apply Forall_cons in Hall as [Hnot _]. done.
  - rewrite Hsplit in Hsplit2.
    apply (last_hit_suffix (λ e, resolve_parent e.1 w = Some parent))
      in Hsplit2 as (_ & [= <- <-] & _); done.
Qed.

Lemma formRelationships_last_entry_wins_witness :
  childrenByIdentifier staged_clan
  = [("mom"%string, [2%nat]); ("mama"%string, [3%nat]);
     ("dad"%string, [4%nat])]
  ∧ resolve_parent "mom"%string staged_clan = Some (Some 0%nat)
  ∧ resolve_parent "mama"%string staged_clan = Some (Some 0%nat)
  ∧ JsMap.get (Some 0%nat)
      (childrenByParent (formRelationships staged_clan).2)
    = Some [3%nat].
Proof.
  split_and!; [vm_compute; reflexivity..|].
  apply (formRelationships_last_entry_wins staged_clan
           (formRelationships staged_clan).2 [("mom"%string, [2%nat])]
           "mama"%string [3%nat] [("dad"%string, [4%nat])] (Some 0%nat)).
  - vm_compute. reflexivity.
  - vm_compute. reflexivity.
  - vm_compute. reflexivity.
  - constructor; [|constructor]. vm_compute. intros [=].
Defined.

Lemma visits_hits x y c path : visits x y c path → Forall (hits x y) path.
Proof. induction 1; by constructor. Qed.

(** X24. The object that the traversal returns contains the query
    point. *)
Theorem findTopmost_is_hit (root : item) (x y : float) (r : item) :
  findTopmostObjectAtPosition root x y = Some r → hits x y r.
Proof.
  destruct (findTopmost_visits root x y) as (path & Hv & ->).
  intros [Hin _]%best_from_highest.
  eapply Forall_forall in Hin; [exact Hin|]. by eapply visits_hits.
Qed.

Lemma findTopmost_is_hit_witness : hits 7 7 sprite_a.
Proof.
  apply (findTopmost_is_hit (demo_root [sprite_b; sprite_a]) 7 7 sprite_a).
  by vm_compute.
Defined.
